(** * A shallow embedding of the "Essentials of interpretation" evaluator

    The program verified here is lesson 7 of the series (derived
    expressions: [if] and [cond]), the last and most complete variant of
    the evaluator; it is the text that starts with "Lesson 7" inside
    [src/CS-61A/src/misc/jison/infix/grammar.y].  Lessons 4, 5 and 6 are
    earlier increments of the same functions.

    The evaluator is JavaScript: expressions are numbers, strings and
    nested arrays, environments are host objects chained through their
    prototypes, and most predicates rely on the host's implicit
    conversions.  The embedding keeps all of that explicit. *)

From Stdlib Require Import ZArith Ascii String List Bool Lia.
From stdpp Require Import base option strings gmap list pretty.

Set Warnings "-register-all".

Local Open Scope string_scope.
Local Open Scope list_scope.
Local Open Scope Z_scope.

(** ** Data model *)

(** Expressions, as the parser of note 2 and the expansion of [cond]
    produce them: [undefined] (a missing array element), [null] and
    [false] (made by [sequenceExpression] and [expandCondClauses]),
    numbers (integers: floating point is outside the model), strings and
    arrays. *)
Inductive expr : Type :=
| EUndefined
| ENull
| EBool (b : bool)
| ENum (n : Z)
| EStr (s : string)
| EArr (elems : list expr).

(** An environment is a host object; it is known by its address. *)
Abbreviation loc := nat.

(** Host functions.  All but the last are the ones the source registers
    in [TheGlobalEnvironment] (lesson 5 registers [+], [*] and [print],
    lesson 7 everything but [*]); [NHost] are the function-valued members
    the root frame inherits from the host's [Object.prototype]. *)
Inductive native : Type :=
| NGreater | NEquals | NIsNull | NPlus | NTimes | NMinus | NPrint | NEnvToString
| NHost (member : string).

(** Runtime values.  [VFunction p b e] is the array
    [["function", p, b]] with its [environment] property set to [e], as
    [makeFunction] builds it. *)
Inductive value : Type :=
| VData (e : expr)
| VFunction (parameters : expr) (body : list expr) (environment : loc)
| VNative (f : native).

(** One frame: its own bindings and its prototype. *)
Record frame : Type := Frame {
  bindings : gmap string value;
  prototype : option loc
}.

(** The store of environment objects, and what [print] has written. *)
Record state : Type := State {
  heap : list frame;
  output : list (list value)
}.

(** What the host can throw.  [ThrowString] is a [throw "..."] of the
    source, [ReferenceError] its [throw ReferenceError(...)], [TypeError]
    the host's own error on [undefined[0]] and the like. *)
Inductive exn : Type :=
| ReferenceError (msg : string)
| TypeError
| ThrowString (msg : string).

(** [OutOfFuel] is the bound of the embedding's recursion, not a
    behaviour of the program.  [Unmodelled] marks host behaviour the
    embedding does not describe (floating point, string concatenation,
    identity of arrays, calls of inherited host members). *)
Inductive res (A : Type) : Type :=
| Ok (a : A)
| Throw (e : exn)
| OutOfFuel
| Unmodelled.
Arguments Ok {A} a.
Arguments Throw {A} e.
Arguments OutOfFuel {A}.
Arguments Unmodelled {A}.

(** ** Host conversions *)

Module Host.

Definition code (c : ascii) : nat := nat_of_ascii c.

Definition between (lo hi : nat) (c : ascii) : bool :=
  Nat.leb lo (code c) && Nat.leb (code c) hi.

Definition isDigit : ascii -> bool := between 48 57.
Definition isLower : ascii -> bool := between 97 122.
Definition isUpper : ascii -> bool := between 65 90.
Definition isHexDigit (c : ascii) : bool :=
  isDigit c || between 97 102 c || between 65 70 c.
Definition isOctDigit : ascii -> bool := between 48 55.
Definition isBinDigit : ascii -> bool := between 48 49.

(** White space and line terminators of the host (the ASCII ones). *)
Definition isStrWhiteSpace (c : ascii) : bool :=
  between 9 13 c || Nat.eqb (code c) 32.

Fixpoint dropWhile {A : Type} (p : A -> bool) (l : list A) : list A :=
  match l with
  | [] => []
  | x :: r => if p x then dropWhile p r else l
  end.

Definition trim (l : list ascii) : list ascii :=
  rev (dropWhile isStrWhiteSpace (rev (dropWhile isStrWhiteSpace l))).

Definition allOf (p : ascii -> bool) (l : list ascii) : bool :=
  match l with
  | [] => false
  | _ => forallb p l
  end.

Definition isSign (c : ascii) : bool :=
  Nat.eqb (code c) 43 || Nat.eqb (code c) 45.

(** The digits after [e] or [E]. *)
Definition isExponentDigits (l : list ascii) : bool :=
  match l with
  | c :: r => if isSign c then allOf isDigit r else allOf isDigit l
  | [] => false
  end.

(** An optional exponent part, up to the end of the string. *)
Definition isExponentOpt (l : list ascii) : bool :=
  match l with
  | [] => true
  | c :: r => (Nat.eqb (code c) 101 || Nat.eqb (code c) 69) && isExponentDigits r
  end.

(** StrUnsignedDecimalLiteral. *)
Definition isUnsignedDecimal (l : list ascii) : bool :=
  if decide (l = list_ascii_of_string "Infinity") then true
  else
    match l with
    | c :: r =>
        if Nat.eqb (code c) 46 then
          let r' := dropWhile isDigit r in
          negb (Nat.eqb (length r') (length r)) && isExponentOpt r'
        else
          let t := dropWhile isDigit l in
          if Nat.eqb (length t) (length l) then false
          else
            match t with
            | d :: t' =>
                if Nat.eqb (code d) 46 then isExponentOpt (dropWhile isDigit t')
                else isExponentOpt t
            | [] => true
            end
    | [] => false
    end.

Definition isSignedDecimal (l : list ascii) : bool :=
  match l with
  | c :: r => if isSign c then isUnsignedDecimal r else isUnsignedDecimal l
  | [] => false
  end.

(** Hexadecimal, octal and binary integer literals. *)
Definition isRadixLiteral (l : list ascii) : bool :=
  match l with
  | z :: x :: r =>
      Nat.eqb (code z) 48 &&
      (if Nat.eqb (code x) 120 || Nat.eqb (code x) 88 then allOf isHexDigit r
       else if Nat.eqb (code x) 111 || Nat.eqb (code x) 79 then allOf isOctDigit r
       else if Nat.eqb (code x) 98 || Nat.eqb (code x) 66 then allOf isBinDigit r
       else false)
  | _ => false
  end.

(** [stringIsNumeric s] is [!isNaN(s)] for a string [s]: the string,
    trimmed, is empty or a numeric literal. *)
Definition stringIsNumeric (s : string) : bool :=
  match trim (list_ascii_of_string s) with
  | [] => true
  | l => isRadixLiteral l || isSignedDecimal l
  end.

Definition joinWith (item : expr -> string) : list expr -> string :=
  fix join (l : list expr) : string :=
    match l with
    | [] => ""
    | [x] => item x
    | x :: rest => item x +:+ "," +:+ join rest
    end.

(** [String(e)]: arrays are joined with commas, [null] and [undefined]
    elements giving the empty string. *)
Fixpoint toString (e : expr) : string :=
  match e with
  | EUndefined => "undefined"
  | ENull => "null"
  | EBool true => "true"
  | EBool false => "false"
  | ENum n => pretty n
  | EStr s => s
  | EArr l =>
      joinWith (fun x => match x with
                         | EUndefined | ENull => ""
                         | _ => toString x
                         end) l
  end.

(** [isNaN(e)]. *)
Definition isNaN (e : expr) : bool :=
  match e with
  | EUndefined => true
  | ENull | EBool _ | ENum _ => false
  | EStr _ | EArr _ => negb (stringIsNumeric (toString e))
  end.

(** The host's truthiness of a datum, as [if (...)] and [||] use it. *)
Definition toBoolean (e : expr) : bool :=
  match e with
  | EUndefined | ENull => false
  | EBool b => b
  | ENum n => negb (Z.eqb n 0)
  | EStr s => negb (String.eqb s "")
  | EArr _ => true
  end.

(** [e[i]]. *)
Definition index (e : expr) (i : nat) : res expr :=
  match e with
  | EUndefined | ENull => Throw TypeError
  | EBool _ | ENum _ => Ok EUndefined
  | EStr s =>
      match String.get i s with
      | Some c => Ok (EStr (String c EmptyString))
      | None => Ok EUndefined
      end
  | EArr l => Ok (nth i l EUndefined)
  end.

(** [e.slice(n)]; numbers and booleans have no [slice]. *)
Definition slice (e : expr) (n : nat) : res expr :=
  match e with
  | EArr l => Ok (EArr (drop n l))
  | EStr s => Ok (EStr (String.substring n (String.length s - n) s))
  | _ => Throw TypeError
  end.

(** [x == tag] for a string [tag] that is not a numeric literal, which
    every tag of the source is: a number or a boolean is compared with
    NaN, an array through its string. *)
Definition looseEqTag (x : expr) (tag : string) : bool :=
  match x with
  | EUndefined | ENull | EBool _ | ENum _ => false
  | EStr s => String.eqb s tag
  | EArr _ => String.eqb (toString x) tag
  end.

(** The indexed elements of [e], when it has a [length]: the elements of
    an array, the characters of a string; [None] when [e.length] is
    [undefined]. *)
Definition elements (e : expr) : res (option (list expr)) :=
  match e with
  | EUndefined | ENull => Throw TypeError
  | EBool _ | ENum _ => Ok None
  | EStr s =>
      Ok (Some (map (fun c => EStr (String c EmptyString)) (list_ascii_of_string s)))
  | EArr l => Ok (Some l)
  end.

(** The double-quote character. *)
Definition dquote : string := String (ascii_of_nat 34) EmptyString.

(** Integers a host number holds exactly. *)
Definition isSafeInteger (n : Z) : bool :=
  Z.leb (Z.abs n) 9007199254740992.

(** An element of an array inside [toString]. *)
Definition itemString (x : expr) : string :=
  match x with
  | EUndefined | ENull => ""
  | _ => toString x
  end.


End Host.

(** ** Effects: a state and error monad *)

Definition rbind {A B : Type} (r : res A) (k : A -> res B) : res B :=
  match r with
  | Ok a => k a
  | Throw e => Throw e
  | OutOfFuel => OutOfFuel
  | Unmodelled => Unmodelled
  end.

Notation "'let?' x := r 'in' k" := (rbind r (fun x => k))
  (at level 10, x name, r at level 100, k at level 200).

Definition M (A : Type) : Type := state -> res A * state.

Definition ret {A : Type} (a : A) : M A := fun st => (Ok a, st).

Definition raise {A : Type} (e : exn) : M A := fun st => (Throw e, st).

Definition lift {A : Type} (r : res A) : M A := fun st => (r, st).

Definition bind {A B : Type} (m : M A) (k : A -> M B) : M B :=
  fun st =>
    match m st with
    | (Ok a, st') => k a st'
    | (Throw e, st') => (Throw e, st')
    | (OutOfFuel, st') => (OutOfFuel, st')
    | (Unmodelled, st') => (Unmodelled, st')
    end.

Notation "'do' x <- m ; k" := (bind m (fun x => k))
  (at level 10, x name, m at level 100, k at level 200).

(** ** Environments *)

Module Env.

(** The frame that owns [key], searching from [l] outwards: whether the
    frame has the key as its own property, else its prototype.  A
    prototype chain of the host is acyclic, so it visits at most as many
    frames as [n], the size of the store. *)
Fixpoint ownerFrame (n : nat) (h : list frame) (l : loc) (key : string)
  : option loc :=
  match n with
  | O => None
  | S n' =>
      match h !! l with
      | None => None
      | Some f =>
          match bindings f !! key with
          | Some _ => Some l
          | None =>
              match prototype f with
              | None => None
              | Some p => ownerFrame n' h p key
              end
          end
      end
  end.

(** [key in environment]. *)
Definition hasProperty (h : list frame) (l : loc) (key : string) : bool :=
  match ownerFrame (length h) h l key with
  | Some _ => true
  | None => false
  end.

(** [environment[key]], read through the prototype chain. *)
Definition getProperty (h : list frame) (l : loc) (key : string) : value :=
  match ownerFrame (length h) h l key with
  | Some o =>
      match h !! o with
      | Some f => default (VData EUndefined) (bindings f !! key)
      | None => VData EUndefined
      end
  | None => VData EUndefined
  end.

(** [environment[key] = v]: always an own property of [environment]
    (every inherited member is an ordinary writable data property; the
    host's accessor [__proto__] is outside the model). *)
Definition setOwn (h : list frame) (l : loc) (key : string) (v : value)
  : list frame :=
  match h !! l with
  | Some f => <[l := Frame (<[key := v]> (bindings f)) (prototype f)]> h
  | None => h
  end.

(** [Object.create(parent)]: a new object at the end of the store. *)
Definition create (h : list frame) (parent : loc) : list frame * loc :=
  (h ++ [Frame ∅ (Some parent)], length h).

End Env.

(** ** The evaluator of lesson 7 *)

(** *** Predicates and getters *)

Definition isSelfEvaluating (expression : expr) : bool :=
  negb (Host.isNaN expression) ||
  match expression with
  | EStr (String c _) => Nat.eqb (Host.code c) 39
  | _ => false
  end.

(** The character class of [isVariable]'s regular expression. *)
Definition isVariableChar (c : ascii) : bool :=
  Host.isLower c || Host.isUpper c || Host.isDigit c ||
  existsb (fun d => Nat.eqb (Host.code c) (Host.code d))
          (list_ascii_of_string "-_$+*/?!=><").

(** The regular expression is tested on [String(expression)]. *)
Definition isVariable (expression : expr) : bool :=
  Host.allOf isVariableChar (list_ascii_of_string (Host.toString expression)).

Definition isTaggedList (tag : string) (expresison : expr) : res bool :=
  let? x := Host.index expresison 0 in Ok (Host.looseEqTag x tag).

Definition isDefinition := isTaggedList "define".
Definition isAssignment := isTaggedList "set!".
Definition isLambda := isTaggedList "lambda".
Definition isBlock := isTaggedList "begin".
Definition isIf := isTaggedList "if".
Definition isCond := isTaggedList "cond".

Definition isApplication (exp : expr) : bool :=
  match exp with
  | EArr _ => true
  | _ => false
  end.


Definition isUserDefinedFunction (procedure : value) : res bool :=
  match procedure with
  | VData e => isTaggedList "function" e
  | VFunction _ _ _ => Ok true
  | VNative _ => Ok false
  end.

Definition getIfPredicate (ifExpression : expr) : res expr :=
  Host.index ifExpression 1.

Definition getIfConsequent (ifExpression : expr) : res expr :=
  Host.index ifExpression 2.

Definition getIfAlternative (ifExpression : expr) : res expr :=
  let? a := Host.index ifExpression 3 in
  Ok (if Host.toBoolean a then a else EBool false).

Definition getLambdaParameters (lambda : expr) : res expr :=
  Host.index lambda 1.

Definition getLambdaBody (lambda : expr) : res expr :=
  Host.slice lambda 2.

Definition getBlockActions (block : expr) : res expr :=
  Host.slice block 1.

Definition getAssignmentName (expression : expr) : res expr :=
  Host.index expression 1.

Definition getAssignmentValue (expression : expr) : res expr :=
  Host.index expression 2.

Definition getOperator (expression : expr) : res expr :=
  Host.index expression 0.

Definition getArguments (expression : expr) : res expr :=
  Host.slice expression 1.

(** [["lambda", parameters].concat(body)]: [concat] spreads an array
    and appends anything else as one element. *)
Definition makeLambda (parameters body : expr) : expr :=
  match body with
  | EArr l => EArr (EStr "lambda" :: parameters :: l)
  | _ => EArr [EStr "lambda"; parameters; body]
  end.

Definition getDefinitionName (expression : expr) : res expr :=
  let? x := Host.index expression 1 in
  if isVariable x then Ok x else Host.index x 0.

Definition getDefinitionValue (expression : expr) : res expr :=
  let? x := Host.index expression 1 in
  if isVariable x then Host.index expression 2
  else
    let? parameters := Host.slice x 1 in
    let? body := Host.slice expression 2 in
    Ok (makeLambda parameters body).

(** *** The transformation of [cond] *)

Definition makeIf (predicate consequent alternative : expr) : expr :=
  EArr [EStr "if"; predicate; consequent; alternative].

Definition makeBegin (expresisons : expr) : expr :=
  EArr [EStr "begin"; expresisons].

Definition sequenceExpression (expressions : expr) : res expr :=
  let? els := Host.elements expressions in
  match els with
  | Some [] => Ok ENull
  | Some [x] => Ok x
  | _ => Ok (makeBegin expressions)
  end.

Definition getCondPredicate (condClause : expr) : res expr :=
  Host.index condClause 0.

Definition getCondActions (condClause : expr) : res expr :=
  Host.slice condClause 1.

Definition isCondElseClause (condClause : expr) : res bool :=
  let? p := getCondPredicate condClause in Ok (Host.looseEqTag p "else").

Fixpoint expandCondClauses (condClauses : list expr) : res expr :=
  match condClauses with
  | [] => Ok (EBool false)
  | first :: rest =>
      let? isElse := isCondElseClause first in
      if isElse then
        match rest with
        | [] =>
            let? actions := getCondActions first in
            sequenceExpression actions
        | _ :: _ =>
            Throw (ThrowString ("else clause isn't last in the cond: "
                                +:+ Host.toString (EArr condClauses)))
        end
      else
        let? predicate := getCondPredicate first in
        let? actions := getCondActions first in
        let? consequent := sequenceExpression actions in
        let? alternative := expandCondClauses rest in
        Ok (makeIf predicate consequent alternative)
  end.

(** [getCondClauses] is [condExpression.slice(1)]; a [cond] expression
    is an array, since its first element is the tag. *)
Definition condToIf (condExpression : expr) : res expr :=
  let? clauses := Host.slice condExpression 1 in
  match clauses with
  | EArr l => expandCondClauses l
  | _ => Unmodelled
  end.

(** *** Working with environments *)

(** The members every object inherits from the host's root prototype. *)
Definition hostMembers : list string :=
  ["constructor"; "hasOwnProperty"; "isPrototypeOf"; "propertyIsEnumerable";
   "toLocaleString"; "toString"; "valueOf";
   "__defineGetter__"; "__defineSetter__"; "__lookupGetter__";
   "__lookupSetter__"].

Definition ObjectPrototype : frame :=
  Frame (list_to_map (map (fun m => (m, VNative (NHost m))) hostMembers)) None.

(** [var TheGlobalEnvironment = {}], its [toString], and the bindings
    [extendJSObject] copies into it. *)
Definition globalBindings : list (string * value) :=
  [("toString", VNative NEnvToString);
   (">", VNative NGreater);
   ("=", VNative NEquals);
   ("null?", VNative NIsNull);
   ("null", VData ENull);
   ("+", VNative NPlus);
   ("-", VNative NMinus);
   ("print", VNative NPrint)].

(** Address 0 holds the host's root prototype, address 1 the global
    environment, whose prototype it is. *)
Definition TheGlobalEnvironment : loc := 1%nat.

Definition initialState : state :=
  State [ObjectPrototype; Frame (list_to_map globalBindings) (Some 0%nat)] [].

(** The loop of [extendEnvironment] runs from the last index down to the
    first: the binding of index 0 is written last. *)
Fixpoint bindAll (variables : list expr) (values : list value)
  (h : list frame) (l : loc) : list frame :=
  match variables, values with
  | x :: xs, v :: vs => Env.setOwn (bindAll xs vs h l) l (Host.toString x) v
  | _, _ => h
  end.

Definition arityMessage : string :=
  "Count of variables and valules of bindings is not the same".

(** [parentEnvironment] is [None] when the procedure has no
    [environment] property: [Object.create(undefined)] throws. *)
Definition extendEnvironment (variables : expr) (values : list value)
  (parentEnvironment : option loc) : M loc :=
  do els <- lift (Host.elements variables);
  match els with
  | Some xs =>
      if Nat.eqb (length xs) (length values) then
        match parentEnvironment with
        | Some parent =>
            fun st =>
              let '(h, environment) := Env.create (heap st) parent in
              (Ok environment,
               State (bindAll xs values h environment) (output st))
        | None => raise TypeError
        end
      else raise (ThrowString arityMessage)
  | None => raise (ThrowString arityMessage)
  end.

Definition notDefined (variable : expr) : exn :=
  ReferenceError (Host.dquote +:+ Host.toString variable +:+ Host.dquote
                  +:+ " is not defined").

Definition lookupVariableValue (variable : expr) (environment : loc) : M value :=
  fun st =>
    if Env.hasProperty (heap st) environment (Host.toString variable)
    then (Ok (Env.getProperty (heap st) environment (Host.toString variable)), st)
    else (Throw (notDefined variable), st).

Definition defineVariable (variable : expr) (v : value) (environment : loc)
  : M value :=
  fun st =>
    (Ok v, State (Env.setOwn (heap st) environment (Host.toString variable) v)
                 (output st)).

(** The loop walks the prototype chain to the first frame that has the
    variable as its own property ([hasOwnProperty] is the host's own
    test) and writes there. *)
Definition setVariableValue (variable : expr) (v : value) (environment : loc)
  : M value :=
  fun st =>
    match Env.ownerFrame (length (heap st)) (heap st) environment
                         (Host.toString variable) with
    | None => (Throw (notDefined variable), st)
    | Some owner =>
        (Ok v, State (Env.setOwn (heap st) owner (Host.toString variable) v)
                     (output st))
    end.

Definition makeFunction (parameters body : expr) (parentEnvironment : loc)
  : res value :=
  match body with
  | EArr l => Ok (VFunction parameters l parentEnvironment)
  | _ => Unmodelled
  end.

(** *** Built-in functions *)

Definition arg (args : list value) (i : nat) : value :=
  nth i args (VData EUndefined).

#[global] Instance native_eq_dec : EqDecision native.
Proof. solve_decision. Defined.

(** [a === b]; the identity of two arrays is not modelled. *)
Definition strictEquals (a b : value) : res bool :=
  match a, b with
  | VData EUndefined, VData EUndefined => Ok true
  | VData ENull, VData ENull => Ok true
  | VData (EBool x), VData (EBool y) => Ok (Bool.eqb x y)
  | VData (ENum x), VData (ENum y) => Ok (Z.eqb x y)
  | VData (EStr x), VData (EStr y) => Ok (String.eqb x y)
  | VData (EArr _), VData (EArr _) => Unmodelled
  | VData (EArr _), VFunction _ _ _ => Unmodelled
  | VFunction _ _ _, VData (EArr _) => Unmodelled
  | VFunction _ _ _, VFunction _ _ _ => Unmodelled
  | VNative f, VNative g => Ok (bool_decide (f = g))
  | _, _ => Ok false
  end.

(** [a + b], [a * b] and [a - b] on integers the host holds exactly.
    [negativeZero x y] tells when the host's result is its negative
    zero, which the integers do not have. *)
Definition arith (op : Z -> Z -> Z) (negativeZero : Z -> Z -> bool)
  (a b : value) : res value :=
  match a, b with
  | VData (ENum x), VData (ENum y) =>
      if Host.isSafeInteger (op x y) && negb (negativeZero x y)
      then Ok (VData (ENum (op x y)))
      else Unmodelled
  | _, _ => Unmodelled
  end.

Definition plus : value -> value -> res value :=
  arith Z.add (fun _ _ => false).

Definition minus : value -> value -> res value :=
  arith Z.sub (fun _ _ => false).

Definition times : value -> value -> res value :=
  arith Z.mul (fun x y => Z.eqb (x * y) 0 && (Z.ltb x 0 || Z.ltb y 0)).

(** [-a]. *)
Definition negate (a : value) : res value :=
  match a with
  | VData (ENum x) => if Z.eqb x 0 then Unmodelled else Ok (VData (ENum (- x)))
  | _ => Unmodelled
  end.

(** [[].reduce.call(arguments, f)], without an initial value. *)
Fixpoint reduceFrom (f : value -> value -> res value) (acc : value)
  (rest : list value) : res value :=
  match rest with
  | [] => Ok acc
  | b :: r => let? acc' := f acc b in reduceFrom f acc' r
  end.

Definition reduce (f : value -> value -> res value) (args : list value)
  : res value :=
  match args with
  | [] => Throw TypeError
  | a :: r => reduceFrom f a r
  end.

Definition applyBuiltInFunction (procedure : native) (args : list value)
  : M value :=
  match procedure with
  | NGreater =>
      match arg args 0, arg args 1 with
      | VData (ENum a), VData (ENum b) => ret (VData (EBool (Z.ltb b a)))
      | _, _ => lift Unmodelled
      end
  | NEquals =>
      do b <- lift (strictEquals (arg args 0) (arg args 1));
      ret (VData (EBool b))
  | NIsNull =>
      ret (VData (EBool match arg args 0 with
                        | VData ENull => true
                        | _ => false
                        end))
  | NPlus => lift (reduce plus args)
  | NTimes => lift (reduce times args)
  | NMinus =>
      match args with
      | [a] => lift (negate a)
      | _ => lift (reduce minus args)
      end
  | NPrint =>
      fun st => (Ok (VData EUndefined), State (heap st) (output st ++ [args]))
  | NEnvToString => ret (VData (EStr "[object TheGlobalEnvironment]"))
  | NHost _ => lift Unmodelled
  end.

(** *** evaluate and apply *)

Definition truthy (v : value) : bool :=
  match v with
  | VData e => Host.toBoolean e
  | _ => true
  end.

Section Evaluator.

(** The evaluator called by the recursive calls. *)
Variable evaluate : expr -> loc -> M value.

Fixpoint evalEach (expressions : list expr) (environment : loc)
  (returnResult : value) : M value :=
  match expressions with
  | [] => ret returnResult
  | expression :: rest =>
      do v <- evaluate expression environment;
      evalEach rest environment v
  end.

(** [forEach] exists on arrays only. *)
Definition evalSequence (expressions : expr) (environment : loc) : M value :=
  match expressions with
  | EArr l => evalEach l environment (VData EUndefined)
  | _ => raise TypeError
  end.

Fixpoint mapEvaluate (expressions : list expr) (environment : loc)
  : M (list value) :=
  match expressions with
  | [] => ret []
  | argument :: rest =>
      do v <- evaluate argument environment;
      do vs <- mapEvaluate rest environment;
      ret (v :: vs)
  end.

Definition getArgumentValues (expressions : expr) (environment : loc)
  : M (list value) :=
  match expressions with
  | EArr l => mapEvaluate l environment
  | _ => raise TypeError
  end.

Definition evalIf (ifExpression : expr) (environment : loc) : M value :=
  do p <- (do e <- lift (getIfPredicate ifExpression); evaluate e environment);
  if truthy p then
    do e <- lift (getIfConsequent ifExpression); evaluate e environment
  else
    do e <- lift (getIfAlternative ifExpression); evaluate e environment.

Definition evalDefinition (expression : expr) (environment : loc) : M value :=
  do name <- lift (getDefinitionName expression);
  do v <- (do e <- lift (getDefinitionValue expression); evaluate e environment);
  defineVariable name v environment.

Definition evalAssignment (expression : expr) (environment : loc) : M value :=
  do name <- lift (getAssignmentName expression);
  do v <- (do e <- lift (getAssignmentValue expression); evaluate e environment);
  setVariableValue name v environment.

(** [getFunctionBody], [getFunctionParameters] and the [environment]
    property of a procedure.  A plain array tagged "function" has no
    [environment]. *)
Definition applyUserDefinedFunction (procedure : value) (arguments : list value)
  : M value :=
  match procedure with
  | VFunction parameters body environment =>
      do env <- extendEnvironment parameters arguments (Some environment);
      evalSequence (EArr body) env
  | VData e =>
      do body <- lift (Host.index e 2);
      do parameters <- lift (Host.index e 1);
      do env <- extendEnvironment parameters arguments None;
      evalSequence body env
  | VNative _ => lift Unmodelled
  end.

Definition apply (procedure : value) (arguments : list value) : M value :=
  match procedure with
  | VNative f => applyBuiltInFunction f arguments
  | _ =>
      do u <- lift (isUserDefinedFunction procedure);
      if u then applyUserDefinedFunction procedure arguments
      else ret (VData EUndefined)
  end.

(** The body of [evaluate]: the classifications, in the order of the
    source.  An expression that matches none falls off the end of the
    function, which returns [undefined]. *)
Definition evaluateBody (expression : expr) (environment : loc) : M value :=
  if isSelfEvaluating expression then ret (VData expression)
  else if isVariable expression then lookupVariableValue expression environment
  else
    do isDef <- lift (isDefinition expression);
    if isDef then evalDefinition expression environment
    else
    do isSet <- lift (isAssignment expression);
    if isSet then evalAssignment expression environment
    else
    do isLam <- lift (isLambda expression);
    if isLam then
      do parameters <- lift (getLambdaParameters expression);
      do body <- lift (getLambdaBody expression);
      lift (makeFunction parameters body environment)
    else
    do isBlk <- lift (isBlock expression);
    if isBlk then
      do actions <- lift (getBlockActions expression);
      evalSequence actions environment
    else
    do isI <- lift (isIf expression);
    if isI then evalIf expression environment
    else
    do isC <- lift (isCond expression);
    if isC then
      do e <- lift (condToIf expression);
      evaluate e environment
    else
    if isApplication expression then
      do procedure <- (do e <- lift (getOperator expression);
                       evaluate e environment);
      do arguments <- (do es <- lift (getArguments expression);
                       getArgumentValues es environment);
      apply procedure arguments
    else ret (VData EUndefined).

End Evaluator.

(** [evaluate], with the depth of its recursion bounded by [fuel].  The
    source's default for an omitted environment is [evaluateGlobal]. *)
Fixpoint evaluate (fuel : nat) (expression : expr) (environment : loc)
  : M value :=
  match fuel with
  | O => lift OutOfFuel
  | S fuel' => evaluateBody (evaluate fuel') expression environment
  end.

Definition evaluateGlobal (fuel : nat) (expression : expr) : M value :=
  evaluate fuel expression TheGlobalEnvironment.

(** A program: expressions evaluated one after the other at top level. *)
Fixpoint run (fuel : nat) (program : list expr) (st : state)
  : list (res value) * state :=
  match program with
  | [] => ([], st)
  | e :: rest =>
      let '(r, st') := evaluateGlobal fuel e st in
      let '(rs, st'') := run fuel rest st' in
      (r :: rs, st'')
  end.

(** ** The evaluator of lesson 5

    The increment before closures: procedures are plain arrays
    [["function", parameters, body]] and are applied in a frame whose
    parent is the global environment.  Only what differs from lesson 7
    is defined again. *)

Module Lesson5.

(** The character class of lesson 5 has no [?], [!], [=], [>], [<]. *)
Definition isVariableChar (c : ascii) : bool :=
  Host.isLower c || Host.isUpper c || Host.isDigit c ||
  existsb (fun d => Nat.eqb (Host.code c) (Host.code d))
          (list_ascii_of_string "-_$+*/").

Definition isVariable (expression : expr) : bool :=
  Host.allOf isVariableChar (list_ascii_of_string (Host.toString expression)).

Definition makeFunction (parameters body : expr) : expr :=
  EArr [EStr "function"; parameters; body].

Definition getFunctionBody (procedure : expr) : res expr :=
  Host.index procedure 2.

Definition getFunctionParameters (procedure : expr) : res expr :=
  Host.index procedure 1.

Definition getDefinitionName (expression : expr) : res expr :=
  let? x := Host.index expression 1 in
  if isVariable x then Ok x else Host.index x 0.

Definition getDefinitionValue (expression : expr) : res expr :=
  let? x := Host.index expression 1 in
  if isVariable x then Host.index expression 2
  else
    let? parameters := Host.slice x 1 in
    let? body := Host.slice expression 2 in
    Ok (makeFunction parameters body).

Definition globalBindings : list (string * value) :=
  [("toString", VNative NEnvToString);
   ("+", VNative NPlus);
   ("*", VNative NTimes);
   ("print", VNative NPrint)].

Definition initialState : state :=
  State [ObjectPrototype; Frame (list_to_map globalBindings) (Some 0%nat)] [].

Section Evaluator.

Variable evaluate : expr -> loc -> M value.

(** [evaluate(definitionValue)] is called with one argument: the
    environment it evaluates in is the default, [TheGlobalEnvironment]. *)
Definition evalDefinition (expression : expr) (environment : loc) : M value :=
  do definitionValue <- lift (getDefinitionValue expression);
  do isFun <- lift (isTaggedList "function" definitionValue);
  do v <- (if isFun then ret (VData definitionValue)
           else evaluate definitionValue TheGlobalEnvironment);
  do name <- lift (getDefinitionName expression);
  defineVariable name v environment.

Definition apply (procedure : value) (arguments : list value) : M value :=
  match procedure with
  | VNative f => applyBuiltInFunction f arguments
  | VData e =>
      do u <- lift (isTaggedList "function" e);
      if u then
        do body <- lift (getFunctionBody e);
        do parameters <- lift (getFunctionParameters e);
        do env <- extendEnvironment parameters arguments
                    (Some TheGlobalEnvironment);
        evalSequence evaluate body env
      else ret (VData EUndefined)
  | VFunction _ _ _ => lift Unmodelled
  end.

Definition evaluateBody (expression : expr) (environment : loc) : M value :=
  if isSelfEvaluating expression then ret (VData expression)
  else if isVariable expression then lookupVariableValue expression environment
  else
    do isDef <- lift (isDefinition expression);
    if isDef then evalDefinition expression environment
    else
    do isSet <- lift (isAssignment expression);
    if isSet then evalAssignment evaluate expression environment
    else
    if isApplication expression then
      do procedure <- (do e <- lift (getOperator expression);
                       evaluate e environment);
      do arguments <- (do es <- lift (getArguments expression);
                       getArgumentValues evaluate es environment);
      apply procedure arguments
    else ret (VData EUndefined).

End Evaluator.

Fixpoint evaluate (fuel : nat) (expression : expr) (environment : loc)
  : M value :=
  match fuel with
  | O => lift OutOfFuel
  | S fuel' => evaluateBody (evaluate fuel') expression environment
  end.

Fixpoint run (fuel : nat) (program : list expr) (st : state)
  : list (res value) * state :=
  match program with
  | [] => ([], st)
  | e :: rest =>
      let '(r, st') := evaluate fuel e TheGlobalEnvironment st in
      let '(rs, st'') := run fuel rest st' in
      (r :: rs, st'')
  end.

End Lesson5.

(** ** Programs used as examples *)

Module Examples.

(** [(define x 0)] *)
Definition defineX0 : expr := EArr [EStr "define"; EStr "x"; ENum 0].

(** The [cond] of the source's header comment:
    [(cond ((> x 0) x) ((= x 0) (print 'zero) 0) (else (- x)))]. *)
Definition condExample : expr :=
  EArr [EStr "cond";
        EArr [EArr [EStr ">"; EStr "x"; ENum 0]; EStr "x"];
        EArr [EArr [EStr "="; EStr "x"; ENum 0];
              EArr [EStr "print"; EStr "'zero"]; ENum 0];
        EArr [EStr "else"; EArr [EStr "-"; EStr "x"]]].

(** The nested form the same comment gives for it:
    [(if (> x 0) x (if (= x 0) (begin (print 'zero) 0) (- x)))]. *)
Definition nestedIfExample : expr :=
  EArr [EStr "if"; EArr [EStr ">"; EStr "x"; ENum 0]; EStr "x";
        EArr [EStr "if"; EArr [EStr "="; EStr "x"; ENum 0];
              EArr [EStr "begin"; EArr [EStr "print"; EStr "'zero"]; ENum 0];
              EArr [EStr "-"; EStr "x"]]].

(** [(define (f v) (define w v) w)] and [(f 7)]. *)
Definition defineF : expr :=
  EArr [EStr "define"; EArr [EStr "f"; EStr "v"];
        EArr [EStr "define"; EStr "w"; EStr "v"]; EStr "w"].

Definition callF : expr := EArr [EStr "f"; ENum 7].

(** [(define (g) 5)]: a function definition without parameters. *)
Definition defineG : expr := EArr [EStr "define"; EArr [EStr "g"]; ENum 5].


End Examples.

(** ** Vocabulary of the properties *)

(** The error of [expandCondClauses]: the thrown string, which ends with
    the clauses that were left when the else clause was met. *)
Definition MisplacedElse (e : exn) : Prop :=
  exists clauses : string,
    e = ThrowString ("else clause isn't last in the cond: " +:+ clauses).

Definition isArray (e : expr) : Prop := exists l, e = EArr l.

(** The bindings [extendEnvironment] leaves in the new frame: index 0
    is written last. *)
Fixpoint frameBindings (variables : list expr) (values : list value)
  : gmap string value :=
  match variables, values with
  | x :: xs, v :: vs => <[Host.toString x := v]> (frameBindings xs vs)
  | _, _ => ∅
  end.

(** The state in which [applyUserDefinedFunction] evaluates the body:
    the store with the new frame at its end. *)
Definition activation (variables : list expr) (values : list value)
  (closureEnvironment : loc) (st : state) : state :=
  State (heap st ++ [Frame (frameBindings variables values)
                           (Some closureEnvironment)])
        (output st).

(** Every prototype link points to an older object: [Object.create] is
    the only way a prototype is set, and its argument exists already. *)
Definition wellFormed (h : list frame) : Prop :=
  forall (l : loc) (f : frame) (p : loc),
    h !! l = Some f -> prototype f = Some p -> (p < l)%nat.


(** The tags [evaluate] tests before it takes an array for an
    application. *)
Definition formTags : list string :=
  ["define"; "set!"; "lambda"; "begin"; "if"; "cond"].

(** An expression that reaches the last case of [evaluate]. *)
Definition isPlainApplication (e : expr) : bool :=
  negb (isSelfEvaluating e) && negb (isVariable e)
  && forallb (fun tag => match isTaggedList tag e with
                         | Ok false => true
                         | _ => false
                         end) formTags
  && isApplication e.



(** ** An invariant of the store *)

(** A procedure value is sound in a store of [n] objects when its
    closure environment is one of them. *)
Definition valueOk (n : nat) (v : value) : Prop :=
  match v with
  | VFunction _ _ e => (e < n)%nat
  | _ => True
  end.

(** The invariant: prototype links point to older objects, and every
    procedure bound in a frame closes over an existing environment. *)
Definition stateOk (st : state) : Prop :=
  wellFormed (heap st)
  /\ forall (l : loc) (f : frame) (key : string) (v : value),
       heap st !! l = Some f -> bindings f !! key = Some v ->
       valueOk (length (heap st)) v.

(** [preserves n0 ok m]: run in a sound state of at least [n0] objects,
    [m] leaves a sound state, in which no object has disappeared and the
    result, if there is one, satisfies [ok]. *)
Definition preserves {A : Type} (n0 : nat) (ok : nat -> A -> Prop) (m : M A)
  : Prop :=
  forall (st st' : state) (r : res A),
    stateOk st -> (n0 <= length (heap st))%nat -> m st = (r, st') ->
    stateOk st'
    /\ (length (heap st) <= length (heap st'))%nat
    /\ forall a : A, r = Ok a -> ok (length (heap st')) a.

Definition anyOk {A : Type} (n : nat) (a : A) : Prop := True.

Definition locOk (n : nat) (l : loc) : Prop := (l < n)%nat.

Definition valuesOk (n : nat) (vs : list value) : Prop :=
  Forall (valueOk n) vs.

(** What the invariant asks of the evaluator of the recursive calls. *)
Definition evaluatorOk (ev : expr -> loc -> M value) : Prop :=
  forall (e : expr) (env : loc) (n0 : nat),
    (env < n0)%nat -> preserves n0 valueOk (ev e env).

(** ** What evaluation can do to the state *)

(** The three ways the evaluator changes the state: a write of one own
    property ([defineVariable], [setVariableValue]), the frame of a call
    ([extendEnvironment]) and a line of output ([print]). *)
Inductive mutation : state -> state -> Prop :=
| mutation_write (st : state) (l : loc) (key : string) (v : value) :
    mutation st (State (Env.setOwn (heap st) l key v) (output st))
| mutation_create (st : state) (xs : list expr) (vs : list value) (parent : loc) :
    mutation st (activation xs vs parent st)
| mutation_print (st : state) (args : list value) :
    mutation st (State (heap st) (output st ++ [args])).

Definition reaches : state -> state -> Prop := rtc mutation.

(** A computation whose final state is reached by such changes only. *)
Definition traced {A : Type} (m : M A) : Prop :=
  forall (st st' : state) (r : res A), m st = (r, st') -> reaches st st'.

Definition evaluatorTraced (ev : expr -> loc -> M value) : Prop :=
  forall (e : expr) (env : loc), traced (ev e env).

(** No frame disappears, no prototype link changes, no binding is
    removed. *)
Definition framesPersist (st st' : state) : Prop :=
  (length (heap st) <= length (heap st'))%nat
  /\ forall (l : loc) (f : frame),
       heap st !! l = Some f ->
       exists f' : frame,
         heap st' !! l = Some f'
         /\ prototype f' = prototype f
         /\ forall k : string,
              is_Some (bindings f !! k) -> is_Some (bindings f' !! k).

(** The output is only added to. *)
Definition outputGrows (st st' : state) : Prop :=
  exists more : list (list value), output st' = output st ++ more.


(** ** Vocabulary for the built-in arithmetic *)

Definition num (n : Z) : value := VData (ENum n).

(** Every intermediate result of folding [op] over [ns], from [acc],
    is an integer the host holds exactly. *)
Fixpoint foldIsSafe (op : Z -> Z -> Z) (acc : Z) (ns : list Z) : bool :=
  match ns with
  | [] => true
  | n :: rest =>
      Host.isSafeInteger (op acc n) && foldIsSafe op (op acc n) rest
  end.


(** ** The evaluator of lesson 4

    The first increment with environments: literals, variables,
    definitions and applications of built-in functions, in a single
    global frame made by [Object.create(null)], which has no prototype.
    The regular expression of [isVariable] is that of lesson 5.  The
    table of built-ins of this lesson is not embedded (it holds a
    constant that is no integer); the functions take the state they run
    in. *)

Module Lesson4.

Definition isUserDefinedFunction (procedure : value) : bool := true.

Definition notImplemented : string :=
  "User-defined functions are not implemented yet.".

Definition getVariableName (expression : expr) : res expr :=
  Host.index expression 1.

Definition getVariableValue (expression : expr) : res expr :=
  Host.index expression 2.

Section Evaluator.

Variable evaluate : expr -> loc -> M value.

Definition evalDefinition (expression : expr) (environment : loc) : M value :=
  do name <- lift (getVariableName expression);
  do v <- (do e <- lift (getVariableValue expression); evaluate e environment);
  defineVariable name v environment.

Definition apply (procedure : value) (arguments : list value) : M value :=
  match procedure with
  | VNative f => applyBuiltInFunction f arguments
  | _ =>
      if isUserDefinedFunction procedure
      then raise (ThrowString notImplemented)
      else ret (VData EUndefined)
  end.

Definition evaluateBody (expression : expr) (environment : loc) : M value :=
  if isSelfEvaluating expression then ret (VData expression)
  else if Lesson5.isVariable expression
       then lookupVariableValue expression environment
  else
    do isDef <- lift (isDefinition expression);
    if isDef then evalDefinition expression environment
    else
    if isApplication expression then
      do procedure <- (do e <- lift (getOperator expression);
                       evaluate e environment);
      do arguments <- (do es <- lift (getArguments expression);
                       getArgumentValues evaluate es environment);
      apply procedure arguments
    else ret (VData EUndefined).

End Evaluator.

Fixpoint evaluate (fuel : nat) (expression : expr) (environment : loc)
  : M value :=
  match fuel with
  | O => lift OutOfFuel
  | S fuel' => evaluateBody (evaluate fuel') expression environment
  end.

(** An expression that reaches the last case of [evaluate]. *)
Definition isPlainApplication (e : expr) : bool :=
  negb (isSelfEvaluating e) && negb (Lesson5.isVariable e)
  && match isDefinition e with
     | Ok false => true
     | _ => false
     end
  && isApplication e.


End Lesson4.




(** ** Note 3: pairs and lists *)

(** The first implementation: a pair is an array of two elements and a
    list is a chain of pairs that ends in [null]. *)
Module Pairs.

Definition pair (x y : expr) : expr := EArr [x; y].

Definition first (pair : expr) : res expr := Host.index pair 0.

Definition rest (pair : expr) : res expr := Host.index pair 1.

(** The loop runs from the last argument down to the first. *)
Fixpoint list (arguments : Datatypes.list expr) : expr :=
  match arguments with
  | [] => ENull
  | x :: others => pair x (list others)
  end.

End Pairs.

(** The second implementation: a pair whose second component is an
    array is that array with the first component in front. *)
Module EfficientPairs.

Definition pair (x y : expr) : expr :=
  match y with
  | EArr l => EArr (x :: l)
  | _ => EArr [x; y]
  end.

Definition first (pair : expr) : res expr := Host.index pair 0.

(** [pair.length > 2] is false when the length is [undefined]; the
    statement [if (tail.length == 1) tail[1];] has no effect. *)
Definition rest (pair : expr) : res expr :=
  let? els := Host.elements pair in
  match els with
  | Some l => if Nat.ltb 2 (length l) then Host.slice pair 1
              else Host.index pair 1
  | None => Host.index pair 1
  end.

Definition list (arguments : Datatypes.list expr) : expr :=
  EArr (arguments ++ [ENull]).

End EfficientPairs.

(** ** The stack evaluators of the notes *)

(** What the two evaluators share: the table [operators] and the
    conversion [+cell] of a cell of the stack.  A cell is a digit, kept
    as the character that was read, or the number an operator returned.
    Results that are not integers the host holds exactly (a division
    with a remainder or by zero, a negative zero, NaN from an empty
    stack) are outside the model. *)
Module Stack.

Definition isOperator (ch : ascii) : bool :=
  existsb (fun d => Nat.eqb (Host.code ch) (Host.code d))
          (list_ascii_of_string "+-*/").

Definition digitValue (ch : ascii) : Z := Z.of_nat (Host.code ch) - 48.

(** [+cell], for the cell that [pop] returned; [None] is [undefined],
    the result of [pop] on an empty stack. *)
Definition toNumber (cell : option expr) : res Z :=
  match cell with
  | Some (ENum n) => Ok n
  | Some (EStr (String ch EmptyString)) =>
      if Host.isDigit ch then Ok (digitValue ch) else Unmodelled
  | _ => Unmodelled
  end.

(** [operators[ch](a, b)]. *)
Definition operate (ch : ascii) (a b : Z) : res Z :=
  let exact (r : Z) : res Z :=
    if Host.isSafeInteger r then Ok r else Unmodelled in
  if Nat.eqb (Host.code ch) 43 then exact (a + b)
  else if Nat.eqb (Host.code ch) 45 then exact (a - b)
  else if Nat.eqb (Host.code ch) 42 then
    if Z.eqb (a * b) 0 && (Z.ltb a 0 || Z.ltb b 0) then Unmodelled
    else exact (a * b)
  else if Nat.eqb (Host.code ch) 47 then
    if Z.eqb b 0 then Unmodelled
    else if negb (Z.eqb (a mod b) 0) then Unmodelled
    else if Z.eqb a 0 && Z.ltb b 0 then Unmodelled
    else exact (a / b)
  else Unmodelled.

(** [stack.pop()]: the top of the stack is the end of the array. *)
Definition pop (stack : list expr) : option expr * list expr :=
  (last stack, removelast stack).

Definition push (stack : list expr) (cell : expr) : list expr :=
  stack ++ [cell].

(** One character of the scan: a digit is pushed, an operator replaces
    the two cells it pops by its result, anything else is skipped.
    [first] tells which of the two popped cells is the first operand. *)
Definition step (topIsLeft : bool) (ch : ascii) (stack : list expr)
  : res (list expr) :=
  if Host.isDigit ch then Ok (push stack (EStr (String ch EmptyString)))
  else if isOperator ch then
    let '(c1, stack1) := pop stack in
    let? n1 := toNumber c1 in
    let '(c2, stack2) := pop stack1 in
    let? n2 := toNumber c2 in
    let? value := if topIsLeft then operate ch n1 n2 else operate ch n2 n1 in
    Ok (push stack2 (ENum value))
  else Ok stack.

Fixpoint scan (topIsLeft : bool) (chars : list ascii) (stack : list expr)
  : res (list expr) :=
  match chars with
  | [] => Ok stack
  | ch :: others =>
      let? stack' := step topIsLeft ch stack in
      scan topIsLeft others stack'
  end.

(** An arithmetic expression over digits. *)
Inductive term : Type :=
| Digit (d : ascii)
| Operation (o : ascii) (l r : term).

(** The cell an evaluator leaves for a term, when every operation in it
    is exact. *)
Fixpoint number (t : term) : res Z :=
  match t with
  | Digit d => if Host.isDigit d then Ok (digitValue d) else Unmodelled
  | Operation o l r =>
      if isOperator o then
        let? a := number l in
        let? b := number r in
        operate o a b
      else Unmodelled
  end.

Definition cell (t : term) (n : Z) : expr :=
  match t with
  | Digit d => EStr (String d EmptyString)
  | Operation _ _ _ => ENum n
  end.

Definition space : ascii := ascii_of_nat 32.

(** The postfix and the prefix notation of a term, with single spaces. *)
Fixpoint postfix (t : term) : list ascii :=
  match t with
  | Digit d => [d]
  | Operation o l r => postfix l ++ space :: postfix r ++ [space; o]
  end.

Fixpoint prefix (t : term) : list ascii :=
  match t with
  | Digit d => [d]
  | Operation o l r => o :: space :: prefix l ++ space :: prefix r
  end.

End Stack.

(** The postfix evaluator: [b] is popped first, then [a]. *)
Definition postfixEval (string : String.string) : res expr :=
  let? stack := Stack.scan false (list_ascii_of_string string) [] in
  if Nat.ltb 1 (length stack) then
    Throw (ThrowString ("ParseError: " +:+ string +:+ ", stack: "
                        +:+ Host.toString (EArr stack)))
  else Ok (nth 0 stack EUndefined).

(** The prefix evaluator of note 1: it scans from the last character to
    the first, and the left operand is popped first. *)
Definition prefixEvaluate (exp : String.string) : res expr :=
  let? stack := Stack.scan true (rev (list_ascii_of_string exp)) [] in
  Ok (nth 0 stack EUndefined).


(** [first(rest(... rest(l)))] with [k] uses of [rest]: the way the
    tests of note 3 reach an element of a list. *)
Fixpoint element (first rest : expr -> res expr) (k : nat) (l : expr)
  : res expr :=
  match k with
  | O => first l
  | S k' => let? tail := rest l in element first rest k' tail
  end.

(** Terms of the tests of the notes. *)
Module StackExamples.
Import Stack.
Definition digit (n : nat) : term := Digit (ascii_of_nat (48 + n)).
(** [5 1 2 + 4 * + 3 -], the test of the postfix evaluator. *)
Definition postfixTest : term :=
  Operation "-"
    (Operation "+" (digit 5)
       (Operation "*" (Operation "+" (digit 1) (digit 2)) (digit 4)))
    (digit 3).
End StackExamples.

(** * Properties *)

(** ** Facts about the host conversions *)

Module HostFacts.
Import Host.

Lemma toString_array (l : list expr) :
  toString (EArr l) = joinWith itemString l.
Proof. reflexivity. Qed.








End HostFacts.

(** ** How [evaluate] classifies tagged forms *)



Section Dispatch.

Variable ev : expr -> loc -> M value.







End Dispatch.





(** ** C3: the if expression *)




(** ** C6: applying a value that is no procedure *)





(** ** C7: an else clause that is not the last one *)

Lemma expandCondClauses_cons (first : expr) (rest : list expr) :
  expandCondClauses (first :: rest)
  = let? isElse := isCondElseClause first in
    if isElse then
      match rest with
      | [] => let? actions := getCondActions first in sequenceExpression actions
      | _ :: _ =>
          Throw (ThrowString ("else clause isn't last in the cond: "
                              +:+ Host.toString (EArr (first :: rest))))
      end
    else
      let? predicate := getCondPredicate first in
      let? actions := getCondActions first in
      let? consequent := sequenceExpression actions in
      let? alternative := expandCondClauses rest in
      Ok (makeIf predicate consequent alternative).
Proof. reflexivity. Qed.

Lemma expandCondClauses_misplaced (clauses : list expr) :
  forall (i : nat) (c : expr),
    Forall isArray clauses ->
    clauses !! i = Some c ->
    isCondElseClause c = Ok true ->
    (S i < length clauses)%nat ->
    exists e, MisplacedElse e /\ expandCondClauses clauses = Throw e.
Proof.
  induction clauses as [|first rest IH]; intros i c Harr Hi Hc Hlen.
  - discriminate.
  - inversion Harr as [|? ? [l ->] Hrest]; subst.
    rewrite expandCondClauses_cons.
    destruct (isCondElseClause (EArr l)) as [[|]| | |] eqn:E;
      try (unfold isCondElseClause in E; simpl in E; discriminate).
    + simpl rbind. destruct rest as [|r rest'].
      * simpl in Hlen. destruct i; simpl in Hi; [lia | discriminate].
      * eexists. split; [|reflexivity]. eexists. reflexivity.
    + destruct i as [|j].
      * simpl in Hi. injection Hi as <-. rewrite E in Hc. discriminate.
      * simpl in Hi, Hlen.
        destruct (IH j c Hrest Hi Hc ltac:(lia)) as (e & He & Hx).
        exists e. split; [exact He|].
        simpl rbind. rewrite Hx. unfold sequenceExpression. simpl.
        destruct (drop 1 l) as [|? [|? ?]]; reflexivity.
Qed.



(** ** C1: cond against the nested if it stands for *)

(** A clause with two actions or more is wrapped by [makeBegin], which
    nests the array of actions as the single element after the tag,
    while a block, for [getBlockActions], has its actions spread after
    the tag. *)
Lemma sequenceExpression_block (a b : expr) (r : list expr) :
  sequenceExpression (EArr (a :: b :: r))
  = Ok (EArr [EStr "begin"; EArr (a :: b :: r)])
  /\ getBlockActions (EArr [EStr "begin"; EArr (a :: b :: r)])
     = Ok (EArr [EArr (a :: b :: r)])
  /\ getBlockActions (EArr (EStr "begin" :: a :: b :: r))
     = Ok (EArr (a :: b :: r)).
Proof. repeat split. Qed.

(** C1 fails on the example of the source's own header comment.  With
    [x] bound to 0, the hand-written nested [if] prints ['zero] and
    returns 0.  The [cond] it is said to stand for expands to an [if]
    whose consequent is [["begin", [["print", "'zero"], 0]]]; evaluating
    it applies the result of [(print 'zero)], which is [undefined], to
    0, and the host throws its TypeError. *)
Theorem C1_cond_block_clause_is_applied :
  let st := snd (evaluateGlobal 2 Examples.defineX0 initialState) in
  condToIf Examples.condExample
  = Ok (EArr [EStr "if"; EArr [EStr ">"; EStr "x"; ENum 0]; EStr "x";
              EArr [EStr "if"; EArr [EStr "="; EStr "x"; ENum 0];
                    EArr [EStr "begin";
                          EArr [EArr [EStr "print"; EStr "'zero"]; ENum 0]];
                    EArr [EStr "-"; EStr "x"]]])
  /\ evaluateGlobal 9 Examples.nestedIfExample st
     = (Ok (VData (ENum 0)), State (heap st) [[VData (EStr "'zero")]])
  /\ evaluateGlobal 9 Examples.condExample st
     = (Throw TypeError, State (heap st) [[VData (EStr "'zero")]]).
Proof. vm_compute. repeat split. Qed.

(** ** C8: definitions *)


(** C8 fails in lesson 5.  There [evalDefinition] calls
    [evaluate(definitionValue)] without the environment, so the value of
    a definition inside a procedure body is evaluated in the global
    environment: in [(define (f v) (define w v) w)] the inner definition
    cannot see the parameter [v], and [(f 7)] throws.  Lessons 4, 6 and
    7 pass the environment, and the same program returns 7 in lesson 7. *)
Theorem C8_lesson5_definition_value_in_global_environment :
  fst (Lesson5.run 6 [Examples.defineF; Examples.callF] Lesson5.initialState)
  = [Ok (VData (EArr [EStr "function"; EArr [EStr "v"];
                      EArr [EArr [EStr "define"; EStr "w"; EStr "v"];
                            EStr "w"]]));
     Throw (notDefined (EStr "v"))]
  /\ fst (run 6 [Examples.defineF; Examples.callF] initialState)
     = [Ok (VFunction (EArr [EStr "v"])
              [EArr [EStr "define"; EStr "w"; EStr "v"]; EStr "w"]
              TheGlobalEnvironment);
        Ok (VData (ENum 7))].
Proof. vm_compute. split; reflexivity. Qed.

(** A second defect, in lessons 5 to 7 alike: a function definition
    without parameters is not rewritten.  [isVariable] is given the
    array [["g"]], which the host converts to the string "g", so the
    definition is taken for that of a variable and [g] is bound to the
    value of the first body expression. *)
Lemma define_without_parameters_binds_the_body_value :
  getDefinitionValue Examples.defineG = Ok (ENum 5)
  /\ fst (run 4 [Examples.defineG; EStr "g"] initialState)
     = [Ok (VData (ENum 5)); Ok (VData (ENum 5))].
Proof. vm_compute. split; reflexivity. Qed.

(** ** C10: names inherited from the host *)

(** C10: in the initial state the names [constructor] and [valueOf]
    match the grammar of variables and are no binding of the global
    frame, yet their lookup succeeds with the member inherited from the
    host's root prototype, and [set!] on them succeeds too, writing into
    that root prototype; a name that is in neither frame is unbound. *)
Theorem C10_host_members_are_bound :
  Forall (fun name : string =>
            isVariable (EStr name) = true
            /\ ~ In name (map fst globalBindings)
            /\ evaluateGlobal 1 (EStr name) initialState
               = (Ok (VNative (NHost name)), initialState)
            /\ exists st' : state,
                 evaluateGlobal 2 (EArr [EStr "set!"; EStr name; ENum 1])
                   initialState
                 = (Ok (VData (ENum 1)), st')
                 /\ Env.ownerFrame 2 (heap st') TheGlobalEnvironment name
                    = Some 0%nat
                 /\ Env.getProperty (heap st') TheGlobalEnvironment name
                    = VData (ENum 1))
         ["constructor"; "valueOf"]
  /\ evaluateGlobal 1 (EStr "foo") initialState
     = (Throw (notDefined (EStr "foo")), initialState)
  /\ evaluateGlobal 2 (EArr [EStr "set!"; EStr "foo"; ENum 1]) initialState
     = (Throw (notDefined (EStr "foo")), initialState).
Proof.
  split; [|split; vm_compute; reflexivity].
  repeat constructor; try (vm_compute; reflexivity).
  - vm_compute. intuition discriminate.
  - eexists. split; [vm_compute; reflexivity|]. split; vm_compute; reflexivity.
  - vm_compute. intuition discriminate.
  - eexists. split; [vm_compute; reflexivity|]. split; vm_compute; reflexivity.
Qed.

(** ** C9: the one-element sequence *)






(** ** C5: the arity of a compound procedure *)

Lemma setOwn_last (h : list frame) (m : gmap string value) (p : option loc)
  (key : string) (v : value) :
  Env.setOwn (h ++ [Frame m p]) (length h) key v
  = h ++ [Frame (<[key := v]> m) p].
Proof.
  unfold Env.setOwn. rewrite list_lookup_middle by reflexivity.
  rewrite insert_app_r_alt by lia. now rewrite Nat.sub_diag.
Qed.

Lemma bindAll_create (xs : list expr) (vs : list value) (h : list frame)
  (p : loc) :
  bindAll xs vs (h ++ [Frame ∅ (Some p)]) (length h)
  = h ++ [Frame (frameBindings xs vs) (Some p)].
Proof.
  revert vs. induction xs as [|x xs IH]; intros [|v vs]; try reflexivity.
  simpl. rewrite IH. apply setOwn_last.
Qed.







(** ** Chains of frames *)






(** ** C4: assignment *)





(** ** C2: the frame of an application *)




(** ** The invariant is kept by evaluation *)

Section Invariant.

Lemma valueOk_mono (n n' : nat) (v : value) :
  (n <= n')%nat -> valueOk n v -> valueOk n' v.
Proof. destruct v; simpl; auto. lia. Qed.

Lemma valuesOk_mono (n n' : nat) (vs : list value) :
  (n <= n')%nat -> valuesOk n vs -> valuesOk n' vs.
Proof.
  intros Hn H. unfold valuesOk in *. eapply Forall_impl; [exact H|].
  intros v. now apply valueOk_mono.
Qed.

Lemma preserves_weaken {A : Type} (n0 n1 : nat) (ok : nat -> A -> Prop)
  (m : M A) :
  (n0 <= n1)%nat -> preserves n0 ok m -> preserves n1 ok m.
Proof.
  intros Hn Hm st st' r Hst Hlen E. apply (Hm st st' r Hst); [lia | exact E].
Qed.

Lemma preserves_ret {A : Type} (n0 : nat) (ok : nat -> A -> Prop) (a : A) :
  (forall n : nat, (n0 <= n)%nat -> ok n a) -> preserves n0 ok (ret a).
Proof.
  intros Ha st st' r Hst Hlen E. unfold ret in E. injection E as <- <-.
  split; [exact Hst | split; [lia|]]. intros a' [= <-]. now apply Ha.
Qed.

Lemma preserves_lift {A : Type} (n0 : nat) (r : res A) :
  preserves n0 anyOk (lift r).
Proof.
  intros st st' r' Hst Hlen E. unfold lift in E. injection E as <- <-.
  split; [exact Hst | split; [lia|]]. intros a _. exact I.
Qed.

Lemma preserves_raise {A : Type} (n0 : nat) (ok : nat -> A -> Prop) (e : exn) :
  preserves n0 ok (raise e).
Proof.
  intros st st' r' Hst Hlen E. unfold raise in E. injection E as <- <-.
  split; [exact Hst | split; [lia | discriminate]].
Qed.

Lemma preserves_fail {A : Type} (n0 : nat) (ok : nat -> A -> Prop) (r : res A) :
  (forall a : A, r <> Ok a) -> preserves n0 ok (lift r).
Proof.
  intros Hr st st' r' Hst Hlen E. unfold lift in E. injection E as <- <-.
  split; [exact Hst | split; [lia|]]. intros a Ha. now destruct (Hr a).
Qed.

Lemma preserves_bind {A B : Type} (n0 : nat) (okA : nat -> A -> Prop)
  (okB : nat -> B -> Prop) (m : M A) (k : A -> M B) :
  preserves n0 okA m ->
  (forall (a : A) (n1 : nat),
      (n0 <= n1)%nat -> okA n1 a -> preserves n1 okB (k a)) ->
  preserves n0 okB (bind m k).
Proof.
  intros Hm Hk st st' r Hst Hlen E. unfold bind in E.
  destruct (m st) as [[a|e| |] st1] eqn:Em;
    destruct (Hm st st1 _ Hst Hlen Em) as (Hst1 & Hle & Hok).
  - destruct (Hk a (length (heap st1)) ltac:(lia) (Hok a eq_refl)
                st1 st' r Hst1 ltac:(lia) E) as (Hst' & Hle' & Hok').
    split; [exact Hst' | split; [lia | exact Hok']].
  - injection E as <- <-. split; [exact Hst1 | split; [lia | discriminate]].
  - injection E as <- <-. split; [exact Hst1 | split; [lia | discriminate]].
  - injection E as <- <-. split; [exact Hst1 | split; [lia | discriminate]].
Qed.

(** A pure step followed by a continuation. *)
Lemma preserves_bind_lift {A B : Type} (n0 : nat) (okB : nat -> B -> Prop)
  (r : res A) (k : A -> M B) :
  (forall a : A, r = Ok a -> preserves n0 okB (k a)) ->
  preserves n0 okB (bind (lift r) k).
Proof.
  intros Hk st st' r' Hst Hlen E. unfold bind, lift in E.
  destruct r as [a|e| |].
  - now apply (Hk a eq_refl st st' r').
  - injection E as <- <-. split; [exact Hst | split; [lia | discriminate]].
  - injection E as <- <-. split; [exact Hst | split; [lia | discriminate]].
  - injection E as <- <-. split; [exact Hst | split; [lia | discriminate]].
Qed.

Lemma setOwn_length (h : list frame) (l : loc) (key : string) (v : value) :
  length (Env.setOwn h l key v) = length h.
Proof.
  unfold Env.setOwn. destruct (h !! l); [apply length_insert | reflexivity].
Qed.

Lemma setOwn_lookup (h : list frame) (l l' : loc) (key : string) (v : value)
  (f' : frame) :
  Env.setOwn h l key v !! l' = Some f' ->
  exists f : frame,
    h !! l' = Some f
    /\ prototype f' = prototype f
    /\ forall (k : string) (w : value),
         bindings f' !! k = Some w -> w = v \/ bindings f !! k = Some w.
Proof.
  unfold Env.setOwn. destruct (h !! l) as [f|] eqn:Hl.
  - destruct (decide (l' = l)) as [->|Hne].
    + rewrite list_lookup_insert_eq by now apply lookup_lt_Some with f.
      intros [= <-]. exists f. split; [exact Hl|]. split; [reflexivity|].
      intros k w. simpl. destruct (decide (k = key)) as [->|Hk].
      * rewrite lookup_insert_eq. intros [= <-]. now left.
      * rewrite lookup_insert_ne by congruence. now right.
    + rewrite list_lookup_insert_ne by congruence.
      intros Hf. exists f'. split; [exact Hf|]. split; [reflexivity|].
      intros k w Hw. now right.
  - intros Hf. exists f'. split; [exact Hf|]. split; [reflexivity|].
    intros k w Hw. now right.
Qed.

Lemma stateOk_setOwn (st : state) (l : loc) (key : string) (v : value) :
  stateOk st -> valueOk (length (heap st)) v ->
  stateOk (State (Env.setOwn (heap st) l key v) (output st)).
Proof.
  intros [Hwf Hval] Hv. split; simpl.
  - intros l' f' p Hf' Hp.
    destruct (setOwn_lookup _ _ _ _ _ _ Hf') as (f & Hf & Hproto & _).
    apply (Hwf l' f p Hf). now rewrite <- Hproto.
  - intros l' f' k w Hf' Hw. rewrite setOwn_length.
    destruct (setOwn_lookup _ _ _ _ _ _ Hf') as (f & Hf & _ & Hb).
    destruct (Hb k w Hw) as [-> | Hold]; [exact Hv|].
    now apply (Hval l' f k w).
Qed.

Lemma getProperty_ok (st : state) (l : loc) (key : string) :
  stateOk st -> valueOk (length (heap st)) (Env.getProperty (heap st) l key).
Proof.
  intros [_ Hval]. unfold Env.getProperty.
  destruct (Env.ownerFrame _ _ _ _) as [o|]; [|exact I].
  destruct (heap st !! o) as [f|] eqn:Hf; [|exact I].
  destruct (bindings f !! key) as [v|] eqn:Hv; [|exact I].
  simpl. now apply (Hval o f key v).
Qed.

Lemma preserves_lookupVariableValue (n0 : nat) (variable : expr) (env : loc) :
  preserves n0 valueOk (lookupVariableValue variable env).
Proof.
  intros st st' r Hst Hlen E. unfold lookupVariableValue in E.
  destruct (Env.hasProperty _ _ _); injection E as <- <-;
    (split; [exact Hst | split; [lia|]]); [|discriminate].
  intros a [= <-]. now apply getProperty_ok.
Qed.

Lemma preserves_defineVariable (n0 : nat) (variable : expr) (v : value)
  (env : loc) :
  valueOk n0 v -> preserves n0 valueOk (defineVariable variable v env).
Proof.
  intros Hv st st' r Hst Hlen E. unfold defineVariable in E.
  injection E as <- <-. simpl. rewrite setOwn_length.
  assert (valueOk (length (heap st)) v) as Hv' by now apply valueOk_mono with n0.
  split; [now apply stateOk_setOwn | split; [lia|]].
  now intros a [= <-].
Qed.

Lemma preserves_setVariableValue (n0 : nat) (variable : expr) (v : value)
  (env : loc) :
  valueOk n0 v -> preserves n0 valueOk (setVariableValue variable v env).
Proof.
  intros Hv st st' r Hst Hlen E. unfold setVariableValue in E.
  assert (valueOk (length (heap st)) v) as Hv' by now apply valueOk_mono with n0.
  destruct (Env.ownerFrame _ _ _ _) as [o|]; injection E as <- <-; simpl.
  - rewrite setOwn_length.
    split; [now apply stateOk_setOwn | split; [lia|]].
    now intros a [= <-].
  - split; [exact Hst | split; [lia | discriminate]].
Qed.

Lemma preserves_pure {A : Type} (n0 : nat) (ok : nat -> A -> Prop) (r : res A) :
  (forall a : A, r = Ok a -> forall n : nat, (n0 <= n)%nat -> ok n a) ->
  preserves n0 ok (lift r).
Proof.
  intros Hr st st' r' Hst Hlen E. unfold lift in E. injection E as <- <-.
  split; [exact Hst | split; [lia|]]. intros a Ha. now apply (Hr a Ha).
Qed.

Lemma frameBindings_elem (xs : list expr) :
  forall (vs : list value) (k : string) (w : value),
    frameBindings xs vs !! k = Some w -> In w vs.
Proof.
  induction xs as [|x xs IH]; intros [|v vs] k w; simpl;
    try (rewrite lookup_empty; discriminate).
  destruct (decide (k = Host.toString x)) as [->|Hk].
  - rewrite lookup_insert_eq. intros [= <-]. now left.
  - rewrite lookup_insert_ne by congruence. intros Hw. right. now apply (IH vs k).
Qed.

Lemma stateOk_activation (xs : list expr) (vs : list value) (parent : loc)
  (st : state) :
  stateOk st -> (parent < length (heap st))%nat ->
  valuesOk (length (heap st)) vs ->
  stateOk (activation xs vs parent st).
Proof.
  intros [Hwf Hval] Hp Hvs. unfold activation. split; simpl.
  - intros l f p Hf Hproto. apply lookup_app_Some in Hf as [Hf|[Hge Hf]].
    + now apply (Hwf l f p).
    + destruct (l - length (heap st))%nat as [|d] eqn:Hd; [|destruct d; discriminate].
      injection Hf as <-. simpl in Hproto. injection Hproto as <-. lia.
  - intros l f k w Hf Hw. rewrite length_app. simpl length.
    apply lookup_app_Some in Hf as [Hf|[Hge Hf]].
    + apply valueOk_mono with (length (heap st)); [lia|].
      now apply (Hval l f k w).
    + destruct (l - length (heap st))%nat as [|d] eqn:Hd; [|destruct d; discriminate].
      injection Hf as <-. simpl in Hw.
      apply valueOk_mono with (length (heap st)); [lia|].
      unfold valuesOk in Hvs. rewrite Forall_forall in Hvs.
      apply Hvs. apply list_elem_of_In. now apply frameBindings_elem with xs k.
Qed.

Lemma preserves_extendEnvironment (n0 : nat) (variables : expr)
  (values : list value) (parent : option loc) :
  (forall p : loc, parent = Some p -> (p < n0)%nat) ->
  valuesOk n0 values ->
  preserves n0 locOk (extendEnvironment variables values parent).
Proof.
  intros Hp Hvs. unfold extendEnvironment.
  apply preserves_bind_lift. intros [xs|] Hel; [|apply preserves_raise].
  destruct (Nat.eqb (length xs) (length values)) eqn:Hlen;
    [|apply preserves_raise].
  destruct parent as [p|]; [|apply preserves_raise].
  intros st st' r Hst Hn E. unfold Env.create in E.
  rewrite bindAll_create in E. injection E as <- <-.
  specialize (Hp p eq_refl).
  split; [|split].
  - apply stateOk_activation; [exact Hst | lia |].
    now apply valuesOk_mono with n0.
  - simpl. rewrite length_app. simpl. lia.
  - intros a [= <-]. unfold locOk. simpl. rewrite length_app. simpl. lia.
Qed.

Lemma reduceFrom_ok (f : value -> value -> res value) (n : nat) :
  (forall a b v : value, f a b = Ok v -> valueOk n v) ->
  forall (rest : list value) (acc v : value),
    valueOk n acc -> reduceFrom f acc rest = Ok v -> valueOk n v.
Proof.
  intros Hf. induction rest as [|b rest IH]; intros acc v Hacc; simpl.
  - now intros [= <-].
  - destruct (f acc b) as [acc'| | |] eqn:E; simpl; try discriminate.
    apply IH. now apply (Hf acc b).
Qed.

Lemma reduce_ok (f : value -> value -> res value) (n : nat)
  (args : list value) (v : value) :
  (forall a b w : value, f a b = Ok w -> valueOk n w) ->
  valuesOk n args -> reduce f args = Ok v -> valueOk n v.
Proof.
  intros Hf Hargs. destruct args as [|a rest]; simpl; [discriminate|].
  apply reduceFrom_ok; [exact Hf|]. now inversion Hargs.
Qed.

Lemma arith_ok (op : Z -> Z -> Z) (nz : Z -> Z -> bool) (n : nat)
  (a b v : value) :
  arith op nz a b = Ok v -> valueOk n v.
Proof.
  unfold arith. destruct a as [[| | |x| |]| |]; try discriminate.
  destruct b as [[| | |y| |]| |]; try discriminate.
  destruct (_ && _); [|discriminate]. now intros [= <-].
Qed.

Lemma preserves_applyBuiltInFunction (n0 : nat) (f : native)
  (args : list value) :
  valuesOk n0 args -> preserves n0 valueOk (applyBuiltInFunction f args).
Proof.
  intros Hargs. destruct f; unfold applyBuiltInFunction.
  - destruct (arg args 0) as [[| | |a| |]| |];
      try (apply preserves_fail; discriminate).
    destruct (arg args 1) as [[| | |b| |]| |];
      try (apply preserves_fail; discriminate).
    now apply preserves_ret.
  - apply preserves_bind_lift. intros b _. now apply preserves_ret.
  - now apply preserves_ret.
  - apply preserves_pure. intros v Hv n Hn.
    apply (reduce_ok plus n args v); [apply arith_ok | | exact Hv].
    now apply valuesOk_mono with n0.
  - apply preserves_pure. intros v Hv n Hn.
    apply (reduce_ok times n args v); [apply arith_ok | | exact Hv].
    now apply valuesOk_mono with n0.
  - destruct args as [|a [|b rest]].
    + apply preserves_fail. discriminate.
    + apply preserves_pure. intros v Hv n Hn. unfold negate in Hv.
      destruct a as [[| | |x| |]| |]; try discriminate.
      destruct (Z.eqb x 0); [discriminate|]. now injection Hv as <-.
    + apply preserves_pure. intros v Hv n Hn.
      apply (reduce_ok minus n (a :: b :: rest) v);
        [apply arith_ok | | exact Hv].
      now apply valuesOk_mono with n0.
  - intros st st' r Hst Hn E. injection E as <- <-.
    destruct Hst as [Hwf Hval].
    split; [split; assumption | split; [simpl; lia|]].
    now intros a [= <-].
  - now apply preserves_ret.
  - apply preserves_fail. discriminate.
Qed.

Section Step.

Variable ev : expr -> loc -> M value.
Hypothesis Hev : evaluatorOk ev.

Lemma preserves_evalEach (l : list expr) (env : loc) :
  forall (n0 : nat) (v : value),
    (env < n0)%nat -> valueOk n0 v ->
    preserves n0 valueOk (evalEach ev l env v).
Proof.
  induction l as [|e rest IH]; intros n0 v Henv Hv; simpl.
  - apply preserves_ret. intros n Hn. now apply valueOk_mono with n0.
  - apply preserves_bind with valueOk; [now apply Hev|].
    intros a n1 Hn Ha. apply IH; [lia | exact Ha].
Qed.

Lemma preserves_evalSequence (expressions : expr) (env : loc) (n0 : nat) :
  (env < n0)%nat -> preserves n0 valueOk (evalSequence ev expressions env).
Proof.
  intros Henv. destruct expressions; try apply preserves_raise.
  now apply preserves_evalEach.
Qed.

Lemma preserves_mapEvaluate (l : list expr) (env : loc) :
  forall n0 : nat,
    (env < n0)%nat -> preserves n0 valuesOk (mapEvaluate ev l env).
Proof.
  induction l as [|e rest IH]; intros n0 Henv; simpl.
  - apply preserves_ret. intros n Hn. constructor.
  - apply preserves_bind with valueOk; [now apply Hev|].
    intros v n1 Hn Hv.
    apply preserves_bind with valuesOk; [apply IH; lia|].
    intros vs n2 Hn2 Hvs. apply preserves_ret. intros n Hn3.
    constructor.
    + apply valueOk_mono with n1; [lia | exact Hv].
    + apply valuesOk_mono with n2; [lia | exact Hvs].
Qed.

Lemma preserves_getArgumentValues (expressions : expr) (env : loc) (n0 : nat) :
  (env < n0)%nat ->
  preserves n0 valuesOk (getArgumentValues ev expressions env).
Proof.
  intros Henv. destruct expressions; try apply preserves_raise.
  now apply preserves_mapEvaluate.
Qed.

Lemma preserves_sub (r : res expr) (env : loc) (n0 : nat) :
  (env < n0)%nat ->
  preserves n0 valueOk (do e <- lift r; ev e env).
Proof.
  intros Henv. apply preserves_bind_lift. intros e _. now apply Hev.
Qed.

Lemma preserves_evalIf (ifExpression : expr) (env : loc) (n0 : nat) :
  (env < n0)%nat -> preserves n0 valueOk (evalIf ev ifExpression env).
Proof.
  intros Henv. unfold evalIf.
  apply preserves_bind with valueOk; [now apply preserves_sub|].
  intros p n1 Hn _. destruct (truthy p); apply preserves_sub; lia.
Qed.

Lemma preserves_evalDefinition (expression : expr) (env : loc) (n0 : nat) :
  (env < n0)%nat -> preserves n0 valueOk (evalDefinition ev expression env).
Proof.
  intros Henv. unfold evalDefinition.
  apply preserves_bind_lift. intros name _.
  apply preserves_bind with valueOk; [now apply preserves_sub|].
  intros v n1 Hn Hv. now apply preserves_defineVariable.
Qed.

Lemma preserves_evalAssignment (expression : expr) (env : loc) (n0 : nat) :
  (env < n0)%nat -> preserves n0 valueOk (evalAssignment ev expression env).
Proof.
  intros Henv. unfold evalAssignment.
  apply preserves_bind_lift. intros name _.
  apply preserves_bind with valueOk; [now apply preserves_sub|].
  intros v n1 Hn Hv. now apply preserves_setVariableValue.
Qed.

Lemma preserves_applyUserDefinedFunction (procedure : value)
  (arguments : list value) (n0 : nat) :
  valueOk n0 procedure -> valuesOk n0 arguments ->
  preserves n0 valueOk (applyUserDefinedFunction ev procedure arguments).
Proof.
  intros Hp Hargs.
  destruct procedure as [e|parameters body cenv|f];
    unfold applyUserDefinedFunction.
  - apply preserves_bind_lift. intros body _.
    apply preserves_bind_lift. intros parameters _.
    apply preserves_bind with locOk.
    + apply preserves_extendEnvironment; [discriminate | exact Hargs].
    + intros env n1 Hn Henv. now apply preserves_evalSequence.
  - apply preserves_bind with locOk.
    + apply preserves_extendEnvironment; [|exact Hargs].
      intros p [= <-]. exact Hp.
    + intros env n1 Hn Henv. now apply preserves_evalSequence.
  - apply preserves_fail. discriminate.
Qed.

Lemma preserves_apply (procedure : value) (arguments : list value) (n0 : nat) :
  valueOk n0 procedure -> valuesOk n0 arguments ->
  preserves n0 valueOk (apply ev procedure arguments).
Proof.
  intros Hp Hargs. unfold apply.
  destruct procedure as [e|parameters body cenv|f].
  - apply preserves_bind_lift. intros [|] _.
    + now apply preserves_applyUserDefinedFunction.
    + now apply preserves_ret.
  - apply preserves_bind_lift. intros [|] _.
    + now apply preserves_applyUserDefinedFunction.
    + now apply preserves_ret.
  - now apply preserves_applyBuiltInFunction.
Qed.

Lemma preserves_evaluateBody : evaluatorOk (evaluateBody ev).
Proof.
  intros expression env n0 Henv. unfold evaluateBody.
  destruct (isSelfEvaluating expression); [now apply preserves_ret|].
  destruct (isVariable expression); [apply preserves_lookupVariableValue|].
  apply preserves_bind_lift. intros [|] _; [now apply preserves_evalDefinition|].
  apply preserves_bind_lift. intros [|] _; [now apply preserves_evalAssignment|].
  apply preserves_bind_lift. intros [|] _.
  { apply preserves_bind_lift. intros parameters _.
    apply preserves_bind_lift. intros body _.
    apply preserves_pure. intros v Hv n Hn. unfold makeFunction in Hv.
    destruct body; try discriminate. injection Hv as <-. simpl. lia. }
  apply preserves_bind_lift. intros [|] _.
  { apply preserves_bind_lift. intros actions _.
    now apply preserves_evalSequence. }
  apply preserves_bind_lift. intros [|] _; [now apply preserves_evalIf|].
  apply preserves_bind_lift. intros [|] _; [now apply preserves_sub|].
  destruct (isApplication expression); [|now apply preserves_ret].
  apply preserves_bind with valueOk; [now apply preserves_sub|].
  intros procedure n1 Hn Hproc.
  apply preserves_bind with valuesOk.
  - apply preserves_bind_lift. intros es _.
    apply preserves_getArgumentValues. lia.
  - intros arguments n2 Hn2 Hargs. apply preserves_apply; [|exact Hargs].
    now apply valueOk_mono with n1.
Qed.

End Step.

Lemma evaluate_ok (fuel : nat) : evaluatorOk (evaluate fuel).
Proof.
  induction fuel as [|fuel IH].
  - intros e env n0 _. apply preserves_fail. discriminate.
  - exact (preserves_evaluateBody (evaluate fuel) IH).
Qed.


(** Every state the evaluator reaches from a sound one is sound: the
    prototype links of its store point to older objects.  The initial
    state is sound, and so is every state between the expressions of a
    program. *)
Lemma evaluate_keeps_invariant (fuel : nat) (e : expr) (env : loc)
  (st st' : state) (r : res value) :
  stateOk st -> (env < length (heap st))%nat ->
  evaluate fuel e env st = (r, st') ->
  stateOk st' /\ (length (heap st) <= length (heap st'))%nat.
Proof.
  intros Hst Henv E.
  destruct (evaluate_ok fuel e env (length (heap st)) Henv st st' r Hst
              (Nat.le_refl _) E) as (H1 & H2 & _).
  now split.
Qed.

Lemma run_keeps_invariant (fuel : nat) (program : list expr) :
  forall st : state,
    stateOk st -> (TheGlobalEnvironment < length (heap st))%nat ->
    stateOk (snd (run fuel program st))
    /\ (length (heap st) <= length (heap (snd (run fuel program st))))%nat.
Proof.
  induction program as [|e rest IH]; intros st Hst Hg; simpl.
  - split; [exact Hst | lia].
  - unfold evaluateGlobal.
    destruct (evaluate fuel e TheGlobalEnvironment st) as [r st1] eqn:E.
    destruct (evaluate_keeps_invariant _ _ _ _ _ _ Hst Hg E) as [Hst1 Hle].
    destruct (IH st1 Hst1 ltac:(lia)) as [H1 H2].
    destruct (run fuel rest st1) as [rs st2]. simpl in *. split; [exact H1 | lia].
Qed.

End Invariant.

(** * Further properties of the evaluator *)

(** ** Evaluation changes the state by writes, new frames and output *)

Section Traces.

Lemma traced_ret {A : Type} (a : A) : traced (ret a).
Proof. intros st st' r E. unfold ret in E. injection E as _ <-. constructor. Qed.

Lemma traced_lift {A : Type} (r : res A) : traced (lift r).
Proof. intros st st' r' E. unfold lift in E. injection E as _ <-. constructor. Qed.

Lemma traced_raise {A : Type} (e : exn) : traced (@raise A e).
Proof. intros st st' r' E. unfold raise in E. injection E as _ <-. constructor. Qed.

Lemma traced_bind {A B : Type} (m : M A) (k : A -> M B) :
  traced m -> (forall a : A, traced (k a)) -> traced (bind m k).
Proof.
  intros Hm Hk st st' r E. unfold bind in E.
  destruct (m st) as [[a|e| |] st1] eqn:Em; specialize (Hm st st1 _ Em).
  - etransitivity; [exact Hm | exact (Hk a st1 st' r E)].
  - now injection E as _ <-.
  - now injection E as _ <-.
  - now injection E as _ <-.
Qed.

Lemma traced_lookupVariableValue (variable : expr) (env : loc) :
  traced (lookupVariableValue variable env).
Proof.
  intros st st' r E. unfold lookupVariableValue in E.
  destruct (Env.hasProperty _ _ _); injection E as _ <-; constructor.
Qed.

Lemma traced_defineVariable (variable : expr) (v : value) (env : loc) :
  traced (defineVariable variable v env).
Proof.
  intros st st' r E. unfold defineVariable in E. injection E as _ <-.
  apply rtc_once. constructor.
Qed.

Lemma traced_setVariableValue (variable : expr) (v : value) (env : loc) :
  traced (setVariableValue variable v env).
Proof.
  intros st st' r E. unfold setVariableValue in E.
  destruct (Env.ownerFrame _ _ _ _); injection E as _ <-.
  - apply rtc_once. constructor.
  - constructor.
Qed.

Lemma traced_extendEnvironment (variables : expr) (values : list value)
  (parent : option loc) :
  traced (extendEnvironment variables values parent).
Proof.
  unfold extendEnvironment. apply traced_bind; [apply traced_lift|].
  intros [xs|]; [|apply traced_raise].
  destruct (Nat.eqb _ _); [|apply traced_raise].
  destruct parent as [p|]; [|apply traced_raise].
  intros st st' r E. unfold Env.create in E. rewrite bindAll_create in E.
  injection E as _ <-. apply rtc_once. apply (mutation_create st xs values p).
Qed.

Lemma traced_applyBuiltInFunction (f : native) (args : list value) :
  traced (applyBuiltInFunction f args).
Proof.
  destruct f; unfold applyBuiltInFunction;
    try apply traced_lift; try apply traced_ret.
  - destruct (arg args 0) as [[| | |a| |]| |]; try apply traced_lift.
    destruct (arg args 1) as [[| | |b| |]| |];
      first [apply traced_ret | apply traced_lift].
  - apply traced_bind; [apply traced_lift | intros b; apply traced_ret].
  - destruct args as [|a [|b rest]]; apply traced_lift.
  - intros st st' r E. injection E as _ <-. apply rtc_once. constructor.
Qed.

Section Step.

Variable ev : expr -> loc -> M value.
Hypothesis Hev : evaluatorTraced ev.

Lemma traced_sub (r : res expr) (env : loc) :
  traced (do e <- lift r; ev e env).
Proof. apply traced_bind; [apply traced_lift | intros e; apply Hev]. Qed.

Lemma traced_evalEach (l : list expr) (env : loc) :
  forall v : value, traced (evalEach ev l env v).
Proof.
  induction l as [|e rest IH]; intros v; simpl.
  - apply traced_ret.
  - apply traced_bind; [apply Hev | exact IH].
Qed.

Lemma traced_evalSequence (expressions : expr) (env : loc) :
  traced (evalSequence ev expressions env).
Proof.
  destruct expressions; try apply traced_raise. apply traced_evalEach.
Qed.

Lemma traced_mapEvaluate (l : list expr) (env : loc) :
  traced (mapEvaluate ev l env).
Proof.
  induction l as [|e rest IH]; simpl.
  - apply traced_ret.
  - apply traced_bind; [apply Hev|]. intros v.
    apply traced_bind; [exact IH|]. intros vs. apply traced_ret.
Qed.

Lemma traced_getArgumentValues (expressions : expr) (env : loc) :
  traced (getArgumentValues ev expressions env).
Proof.
  destruct expressions; try apply traced_raise. apply traced_mapEvaluate.
Qed.

Lemma traced_apply (procedure : value) (arguments : list value) :
  traced (apply ev procedure arguments).
Proof.
  assert (traced (applyUserDefinedFunction ev procedure arguments)) as Huser.
  { destruct procedure as [e|parameters body cenv|f];
      unfold applyUserDefinedFunction.
    - apply traced_bind; [apply traced_lift|]. intros body.
      apply traced_bind; [apply traced_lift|]. intros parameters.
      apply traced_bind; [apply traced_extendEnvironment|]. intros env.
      apply traced_evalSequence.
    - apply traced_bind; [apply traced_extendEnvironment|]. intros env.
      apply traced_evalSequence.
    - apply traced_lift. }
  unfold apply. destruct procedure as [e|parameters body cenv|f].
  - apply traced_bind; [apply traced_lift|].
    intros [|]; [exact Huser | apply traced_ret].
  - apply traced_bind; [apply traced_lift|].
    intros [|]; [exact Huser | apply traced_ret].
  - apply traced_applyBuiltInFunction.
Qed.

Lemma traced_evaluateBody : evaluatorTraced (evaluateBody ev).
Proof.
  intros expression env. unfold evaluateBody.
  destruct (isSelfEvaluating expression); [apply traced_ret|].
  destruct (isVariable expression); [apply traced_lookupVariableValue|].
  apply traced_bind; [apply traced_lift|]. intros [|].
  { unfold evalDefinition. apply traced_bind; [apply traced_lift|].
    intros name. apply traced_bind; [apply traced_sub|].
    intros v. apply traced_defineVariable. }
  apply traced_bind; [apply traced_lift|]. intros [|].
  { unfold evalAssignment. apply traced_bind; [apply traced_lift|].
    intros name. apply traced_bind; [apply traced_sub|].
    intros v. apply traced_setVariableValue. }
  apply traced_bind; [apply traced_lift|]. intros [|].
  { apply traced_bind; [apply traced_lift|]. intros parameters.
    apply traced_bind; [apply traced_lift|]. intros body. apply traced_lift. }
  apply traced_bind; [apply traced_lift|]. intros [|].
  { apply traced_bind; [apply traced_lift|]. intros actions.
    apply traced_evalSequence. }
  apply traced_bind; [apply traced_lift|]. intros [|].
  { unfold evalIf. apply traced_bind; [apply traced_sub|].
    intros p. destruct (truthy p); apply traced_sub. }
  apply traced_bind; [apply traced_lift|]. intros [|]; [apply traced_sub|].
  destruct (isApplication expression); [|apply traced_ret].
  apply traced_bind; [apply traced_sub|]. intros procedure.
  apply traced_bind.
  - apply traced_bind; [apply traced_lift|]. intros es.
    apply traced_getArgumentValues.
  - intros arguments. apply traced_apply.
Qed.

End Step.

Lemma evaluate_traced (fuel : nat) : evaluatorTraced (evaluate fuel).
Proof.
  induction fuel as [|fuel IH].
  - intros e env. apply traced_lift.
  - exact (traced_evaluateBody (evaluate fuel) IH).
Qed.

End Traces.

(** ** What evaluation never does *)

Lemma framesPersist_refl (st : state) : framesPersist st st.
Proof. split; [lia|]. intros l f Hf. exists f. auto. Qed.

Lemma framesPersist_trans (st1 st2 st3 : state) :
  framesPersist st1 st2 -> framesPersist st2 st3 -> framesPersist st1 st3.
Proof.
  intros [Hl1 H1] [Hl2 H2]. split; [lia|]. intros l f Hf.
  destruct (H1 l f Hf) as (f2 & Hf2 & Hp2 & Hk2).
  destruct (H2 l f2 Hf2) as (f3 & Hf3 & Hp3 & Hk3).
  exists f3. split; [exact Hf3|]. split; [congruence|]. auto.
Qed.

Lemma setOwn_keeps (h : list frame) (o : loc) (key : string) (v : value)
  (l : loc) (f : frame) :
  h !! l = Some f ->
  exists f' : frame,
    Env.setOwn h o key v !! l = Some f'
    /\ prototype f' = prototype f
    /\ forall k : string, is_Some (bindings f !! k) -> is_Some (bindings f' !! k).
Proof.
  intros Hf. unfold Env.setOwn. destruct (h !! o) as [fo|] eqn:Ho.
  - destruct (decide (l = o)) as [->|Hne].
    + rewrite list_lookup_insert_eq by now apply lookup_lt_Some with fo.
      rewrite Hf in Ho. injection Ho as <-.
      eexists. split; [reflexivity|]. split; [reflexivity|].
      intros k Hk. simpl. destruct (decide (k = key)) as [->|Hkey].
      * rewrite lookup_insert_eq. eauto.
      * now rewrite lookup_insert_ne by congruence.
    + rewrite list_lookup_insert_ne by congruence. exists f. auto.
  - exists f. auto.
Qed.

Lemma mutation_framesPersist (st st' : state) :
  mutation st st' -> framesPersist st st'.
Proof.
  intros [st0 l key v|st0 xs vs parent|st0 args].
  - split; simpl; [rewrite setOwn_length; lia|].
    intros l0 f Hf. now apply setOwn_keeps.
  - split; simpl; [rewrite length_app; simpl; lia|].
    intros l0 f Hf. exists f. split; [|auto].
    rewrite lookup_app_l; [exact Hf | now apply lookup_lt_Some with f].
  - split; simpl; [lia|]. intros l0 f Hf. exists f. auto.
Qed.

Lemma reaches_framesPersist (st st' : state) :
  reaches st st' -> framesPersist st st'.
Proof.
  induction 1 as [st|st1 st2 st3 Hm _ IH].
  - apply framesPersist_refl.
  - apply framesPersist_trans with st2; [now apply mutation_framesPersist | exact IH].
Qed.





Lemma reaches_outputGrows (st st' : state) : reaches st st' -> outputGrows st st'.
Proof.
  induction 1 as [st|st1 st2 st3 Hm _ [more IH]].
  - exists []. now rewrite app_nil_r.
  - destruct Hm as [st0 l key v|st0 xs vs parent|st0 args]; simpl in IH.
    + now exists more.
    + now exists more.
    + exists ([args] ++ more). now rewrite IH, <- app_assoc.
Qed.

(** X3: the output is only ever appended to: after any evaluation, the
    lines written before it are still the first lines of the output, in
    the same order. *)
Theorem X3_output_is_only_appended_to
  (fuel : nat) (e : expr) (env : loc) (st : state) :
  outputGrows st (snd (evaluate fuel e env st)).
Proof.
  apply reaches_outputGrows.
  destruct (evaluate fuel e env st) as [r st'] eqn:E.
  exact (evaluate_traced fuel e env st st' r E).
Qed.

Lemma evaluate_length (fuel : nat) (e : expr) (env : loc) (st : state) :
  (length (heap st) <= length (heap (snd (evaluate fuel e env st))))%nat.
Proof.
  destruct (evaluate fuel e env st) as [r st'] eqn:E.
  exact (proj1 (reaches_framesPersist _ _ (evaluate_traced fuel e env st st' r E))).
Qed.



(** ** Definition, assignment and lookup *)












(** ** Blocks and operands *)

Section MoreDispatch.

Variable ev : expr -> loc -> M value.



End MoreDispatch.






(** ** Expressions that match no case *)




(** ** The expansion and the evaluation of cond *)

Lemma sequenceExpression_array (l : list expr) :
  exists s : expr, sequenceExpression (EArr l) = Ok s.
Proof.
  unfold sequenceExpression. simpl.
  destruct l as [|? [|? ?]]; eexists; reflexivity.
Qed.

Lemma expandCondClauses_clause (l rest : list expr) :
  exists s : expr,
    expandCondClauses (EArr l :: rest)
    = if Host.looseEqTag (nth 0 l EUndefined) "else" then
        match rest with
        | [] => Ok s
        | _ :: _ =>
            Throw (ThrowString ("else clause isn't last in the cond: "
                                +:+ Host.toString (EArr (EArr l :: rest))))
        end
      else
        let? alternative := expandCondClauses rest in
        Ok (makeIf (nth 0 l EUndefined) s alternative).
Proof.
  destruct (sequenceExpression_array (drop 1 l)) as [s Hs]. exists s.
  rewrite expandCondClauses_cons.
  unfold isCondElseClause, getCondPredicate, getCondActions. simpl.
  rewrite Hs. reflexivity.
Qed.

Lemma expandCondClauses_outcome (clauses : list expr) :
  Forall isArray clauses ->
  (exists e : expr, expandCondClauses clauses = Ok e)
  \/ (exists x : exn, MisplacedElse x /\ expandCondClauses clauses = Throw x).
Proof.
  induction clauses as [|first rest IH]; intros Harr.
  - left. eexists. reflexivity.
  - inversion Harr as [|? ? [l ->] Hrest]; subst.
    destruct (expandCondClauses_clause l rest) as [s ->].
    destruct (Host.looseEqTag (nth 0 l EUndefined) "else").
    + destruct rest as [|r rest'].
      * left. eauto.
      * right. eexists. split; [|reflexivity]. eexists. reflexivity.
    + destruct (IH Hrest) as [[alt ->]|(x & Hx & ->)].
      * left. eexists. reflexivity.
      * right. exists x. split; [exact Hx | reflexivity].
Qed.

Lemma expandCondClauses_succeeds (clauses : list expr) :
  Forall isArray clauses ->
  (forall (i : nat) (c : expr),
      clauses !! i = Some c -> isCondElseClause c = Ok true ->
      S i = length clauses) ->
  exists e : expr, expandCondClauses clauses = Ok e.
Proof.
  intros Harr Hlast.
  destruct (expandCondClauses_outcome clauses Harr) as [H|(x & _ & Hx)];
    [exact H|].
  exfalso. revert Harr Hlast x Hx.
  induction clauses as [|first rest IH]; intros Harr Hlast x Hx; [discriminate|].
  inversion Harr as [|? ? [l ->] Hrest]; subst.
  destruct (expandCondClauses_clause l rest) as [s Hs]. rewrite Hs in Hx.
  destruct (Host.looseEqTag (nth 0 l EUndefined) "else") eqn:E.
  - specialize (Hlast 0%nat (EArr l) eq_refl).
    unfold isCondElseClause in Hlast. simpl in Hlast. rewrite E in Hlast.
    specialize (Hlast eq_refl). destruct rest; [discriminate | discriminate].
  - destruct (expandCondClauses rest) as [alt|y| |] eqn:Er; try discriminate.
    apply (IH Hrest) with y; [|reflexivity].
    intros i c Hi Hc. specialize (Hlast (S i) c Hi Hc). simpl in Hlast. lia.
Qed.

(** X10: for clauses that are arrays, the expansion of a cond returns an
    expression exactly when no else clause stands before the last
    clause; otherwise it throws the error of a misplaced else.  The
    expansion raises no other error. *)
Theorem X10_expansion_fails_only_on_misplaced_else (clauses : list expr) :
  Forall isArray clauses ->
  ((exists e : expr, expandCondClauses clauses = Ok e)
   <-> (forall (i : nat) (c : expr),
           clauses !! i = Some c -> isCondElseClause c = Ok true ->
           S i = length clauses))
  /\ ((exists e : expr, expandCondClauses clauses = Ok e)
      \/ (exists x : exn, MisplacedElse x /\ expandCondClauses clauses = Throw x)).
Proof.
  intros Harr. split; [|now apply expandCondClauses_outcome].
  split; [|now apply expandCondClauses_succeeds].
  intros [e He] i c Hi Hc.
  destruct (decide (S i = length clauses)) as [|Hne]; [assumption|].
  pose proof (lookup_lt_Some _ _ _ Hi) as Hlt.
  destruct (expandCondClauses_misplaced clauses i c Harr Hi Hc ltac:(lia))
    as (x & _ & Hx).
  congruence.
Qed.

Lemma X10_expansion_fails_only_on_misplaced_else_witness :
  (exists e : expr,
      expandCondClauses [EArr [ENum 1; ENum 2]; EArr [EStr "else"; ENum 3]]
      = Ok e)
  <-> (forall (i : nat) (c : expr),
          [EArr [ENum 1; ENum 2]; EArr [EStr "else"; ENum 3]] !! i = Some c ->
          isCondElseClause c = Ok true ->
          S i = length [EArr [ENum 1; ENum 2]; EArr [EStr "else"; ENum 3]]).
Proof.
  apply (proj1 (X10_expansion_fails_only_on_misplaced_else
                  [EArr [ENum 1; ENum 2]; EArr [EStr "else"; ENum 3]]
                  ltac:(repeat constructor; eexists; reflexivity))).
Defined.







(** ** Function definitions *)



(** ** The built-in arithmetic *)

Lemma reduceFrom_arith (op : Z -> Z -> Z) (ns : list Z) :
  forall acc : Z,
    foldIsSafe op acc ns = true ->
    reduceFrom (arith op (fun _ _ => false)) (num acc) (map num ns)
    = Ok (num (fold_left op ns acc)).
Proof.
  induction ns as [|n rest IH]; intros acc Hsafe; simpl in *.
  - reflexivity.
  - apply andb_true_iff in Hsafe as [H1 H2].
    unfold arith at 1. simpl. rewrite H1. simpl. now apply IH.
Qed.

(** X14: the built-ins [+] and [-] on integers.  [+] returns the sum of
    its arguments, folded from the left; with a single argument it
    returns that argument unchanged, whatever it is, and with none it
    fails with the host's TypeError.  [-] with one argument negates it,
    and with more it subtracts the later arguments from the first, from
    the left.  Neither touches the state. *)
Theorem X14_plus_and_minus_fold_from_the_left
  (n : Z) (ns : list Z) (st : state) :
  (foldIsSafe Z.add n ns = true ->
   applyBuiltInFunction NPlus (map num (n :: ns)) st
   = (Ok (num (fold_left Z.add ns n)), st))
  /\ (ns <> [] -> foldIsSafe Z.sub n ns = true ->
      applyBuiltInFunction NMinus (map num (n :: ns)) st
      = (Ok (num (fold_left Z.sub ns n)), st))
  /\ (n <> 0 -> applyBuiltInFunction NMinus [num n] st = (Ok (num (- n)), st))
  /\ (forall v : value, applyBuiltInFunction NPlus [v] st = (Ok v, st))
  /\ applyBuiltInFunction NPlus [] st = (Throw TypeError, st).
Proof.
  split; [|split; [|split; [|split]]].
  - intros Hsafe. unfold applyBuiltInFunction, lift, reduce, plus. simpl.
    now rewrite (reduceFrom_arith Z.add ns n Hsafe).
  - intros Hne Hsafe. destruct ns as [|m rest]; [congruence|].
    pose proof (reduceFrom_arith Z.sub (m :: rest) n Hsafe) as H.
    simpl map in H |- *.
    unfold applyBuiltInFunction, lift, reduce, minus. now rewrite H.
  - intros Hn. unfold applyBuiltInFunction, lift, negate. simpl.
    apply Z.eqb_neq in Hn. now rewrite Hn.
  - reflexivity.
  - reflexivity.
Qed.

Lemma X14_plus_and_minus_fold_from_the_left_witness :
  applyBuiltInFunction NPlus (map num [1; 2; 3]) initialState
  = (Ok (num 6), initialState)
  /\ applyBuiltInFunction NMinus (map num [10; 2; 3]) initialState
     = (Ok (num 5), initialState).
Proof.
  split.
  - apply (proj1 (X14_plus_and_minus_fold_from_the_left 1 [2; 3] initialState)).
    reflexivity.
  - apply (proj1 (proj2 (X14_plus_and_minus_fold_from_the_left 10 [2; 3]
                           initialState))); [discriminate | reflexivity].
Defined.

(** * Properties of the earlier lessons *)

(** ** Lesson 4 *)



(** ** Lesson 5 *)





(** * More properties of lesson 7 *)



(** * Properties of the notes *)

(** ** Note 3: pairs and lists *)

Lemma efficient_list_cons (a b : expr) (others : list expr) :
  EfficientPairs.rest (EfficientPairs.list (a :: b :: others))
  = Ok (EfficientPairs.list (b :: others)).
Proof.
  unfold EfficientPairs.rest, EfficientPairs.list. cbn [Host.elements rbind app].
  replace (Nat.ltb 2 (length (a :: b :: others ++ [ENull]))) with true.
  - reflexivity.
  - symmetry. apply Nat.ltb_lt. cbn [length]. rewrite length_app. simpl. lia.
Qed.

(** X19: the second implementation of pairs.  [first] of a pair is its
    first component.  [rest] of a pair is its second component when
    that is not an array or is an array of two elements or more; for a
    second component that is an array of one element [rest] gives that
    element, and for the empty array it gives [undefined]. *)
Theorem X19_efficient_rest_of_pair (x y : expr) :
  EfficientPairs.first (EfficientPairs.pair x y) = Ok x
  /\ ((forall l, y = EArr l -> (2 <= length l)%nat) ->
      EfficientPairs.rest (EfficientPairs.pair x y) = Ok y)
  /\ (forall a, EfficientPairs.rest (EfficientPairs.pair x (EArr [a])) = Ok a)
  /\ EfficientPairs.rest (EfficientPairs.pair x (EArr [])) = Ok EUndefined.
Proof.
  split; [destruct y; reflexivity|].
  split; [|split; reflexivity].
  intros H. destruct y as [| | | | |l]; try reflexivity.
  specialize (H l eq_refl).
  destruct l as [|a [|b l]]; simpl in H; try lia.
  unfold EfficientPairs.rest, EfficientPairs.pair. cbn [Host.elements rbind].
  replace (Nat.ltb 2 (length (x :: a :: b :: l))) with true by reflexivity.
  reflexivity.
Qed.

Lemma X19_efficient_rest_of_pair_witness :
  EfficientPairs.rest (EfficientPairs.pair (ENum 1) (EfficientPairs.pair (ENum 2) ENull))
  = Ok (EArr [ENum 2; ENull]).
Proof.
  refine (proj1 (proj2 (X19_efficient_rest_of_pair
                          (ENum 1) (EArr [ENum 2; ENull]))) _).
  intros l E. injection E as <-. simpl. lia.
Defined.

(** X20: chaining the pairs of the second implementation by hand, down
    to [null], builds the array that its [list] builds from the same
    arguments, when there is at least one.  That array is the list of
    the first implementation only for a single argument, and with no
    argument the two constructors differ ([[null]] against [null]). *)
Theorem X20_chained_efficient_pairs_are_the_list (a : expr) (others : list expr) :
  foldr EfficientPairs.pair ENull (a :: others) = EfficientPairs.list (a :: others)
  /\ (EfficientPairs.list (a :: others) = Pairs.list (a :: others)
      <-> others = [])
  /\ EfficientPairs.list [] <> Pairs.list [].
Proof.
  split; [|split].
  - revert a. induction others as [|b others IH]; intros a; [reflexivity|].
    change (foldr EfficientPairs.pair ENull (a :: b :: others))
      with (EfficientPairs.pair a (foldr EfficientPairs.pair ENull (b :: others))).
    rewrite IH. reflexivity.
  - split.
    + destruct others as [|b [|c others]]; [reflexivity| |]; simpl;
        unfold EfficientPairs.list, Pairs.pair; simpl; intros E; discriminate E.
    + intros ->. reflexivity.
  - discriminate.
Qed.

(** X21: in both implementations, [first] after [k] uses of [rest] on
    [list(...)] is the argument at index [k]. *)
Theorem X21_element_of_a_list (arguments : list expr) (k : nat) (x : expr) :
  arguments !! k = Some x ->
  element Pairs.first Pairs.rest k (Pairs.list arguments) = Ok x
  /\ element EfficientPairs.first EfficientPairs.rest k
       (EfficientPairs.list arguments) = Ok x.
Proof.
  revert arguments. induction k as [|k IH]; intros arguments H.
  - destruct arguments as [|a others]; [discriminate|]. injection H as ->.
    split; reflexivity.
  - destruct arguments as [|a others]; [discriminate|]. simpl in H.
    destruct (IH others H) as [I1 I2]. split.
    + exact I1.
    + destruct others as [|b others]; [discriminate|].
      cbn [element]. rewrite efficient_list_cons. exact I2.
Qed.

Lemma X21_element_of_a_list_witness :
  element EfficientPairs.first EfficientPairs.rest 2
    (EfficientPairs.list [ENum 1; ENum 2; ENum 3; ENum 4]) = Ok (ENum 3).
Proof.
  refine (proj2 (X21_element_of_a_list
                   [ENum 1; ENum 2; ENum 3; ENum 4] 2 (ENum 3) _)).
  reflexivity.
Defined.

(** ** The stack evaluators *)

Lemma scan_app (b : bool) (l1 l2 : list ascii) (stack : list expr) :
  Stack.scan b (l1 ++ l2) stack
  = let? stack' := Stack.scan b l1 stack in Stack.scan b l2 stack'.
Proof.
  revert stack. induction l1 as [|ch l1 IH]; intros stack; [reflexivity|].
  simpl. destruct (Stack.step b ch stack); simpl; auto.
Qed.

Lemma isOperator_not_digit (ch : ascii) :
  Stack.isOperator ch = true -> Host.isDigit ch = false.
Proof.
  unfold Stack.isOperator, Host.isDigit, Host.between.
  generalize (Host.code ch). intros c.
  vm_compute list_ascii_of_string. cbn [existsb].
  change (Host.code "+") with 43%nat.
  change (Host.code "-") with 45%nat.
  change (Host.code "*") with 42%nat.
  change (Host.code "/") with 47%nat.
  rewrite !orb_true_iff, !Nat.eqb_eq. intros H.
  apply andb_false_iff. rewrite !Nat.leb_gt. lia.
Qed.

Lemma toNumber_cell (t : Stack.term) (n : Z) :
  Stack.number t = Ok n -> Stack.toNumber (Some (Stack.cell t n)) = Ok n.
Proof.
  destruct t as [d|o l r]; simpl; [|reflexivity].
  destruct (Host.isDigit d); [auto|discriminate].
Qed.

Lemma pop_push (stack : list expr) (c : expr) :
  Stack.pop (Stack.push stack c) = (Some c, stack).
Proof.
  unfold Stack.pop, Stack.push. now rewrite last_snoc, removelast_last.
Qed.

Lemma step_space (b : bool) (stack : list expr) :
  Stack.step b Stack.space stack = Ok stack.
Proof. reflexivity. Qed.

Lemma number_operation (o : ascii) (l r : Stack.term) (n : Z) :
  Stack.number (Stack.Operation o l r) = Ok n ->
  exists a b, Stack.isOperator o = true /\ Stack.number l = Ok a
              /\ Stack.number r = Ok b /\ Stack.operate o a b = Ok n.
Proof.
  simpl. destruct (Stack.isOperator o); [|discriminate].
  destruct (Stack.number l) as [a| | |]; try discriminate.
  destruct (Stack.number r) as [b| | |]; try discriminate.
  simpl. eauto 10.
Qed.

Lemma step_operator (topIsLeft : bool) (o : ascii) (stack : list expr)
      (t1 t2 : Stack.term) (n1 n2 : Z) :
  Stack.isOperator o = true ->
  Stack.number t1 = Ok n1 -> Stack.number t2 = Ok n2 ->
  Stack.step topIsLeft o
    (Stack.push (Stack.push stack (Stack.cell t2 n2)) (Stack.cell t1 n1))
  = let? value := if topIsLeft then Stack.operate o n1 n2
                  else Stack.operate o n2 n1 in
    Ok (Stack.push stack (ENum value)).
Proof.
  intros Ho H1 H2. unfold Stack.step.
  rewrite (isOperator_not_digit o Ho), Ho, !pop_push.
  rewrite (toNumber_cell t1 n1 H1), (toNumber_cell t2 n2 H2). reflexivity.
Qed.

Lemma scan_postfix (t : Stack.term) :
  forall (n : Z) (stack : list expr),
    Stack.number t = Ok n ->
    Stack.scan false (Stack.postfix t) stack
    = Ok (Stack.push stack (Stack.cell t n)).
Proof.
  induction t as [d|o l IHl r IHr]; intros n stack H.
  - simpl in *. unfold Stack.step.
    destruct (Host.isDigit d); [reflexivity|discriminate].
  - destruct (number_operation o l r n H) as (a & b & Ho & Hl & Hr & Hn).
    cbn [Stack.postfix]. rewrite scan_app, (IHl a stack Hl).
    cbn [rbind Stack.scan]. rewrite step_space.
    cbn [rbind]. rewrite scan_app, (IHr b _ Hr).
    cbn [rbind Stack.scan]. rewrite step_space. cbn [rbind].
    rewrite (step_operator false o stack r l b a Ho Hr Hl), Hn. reflexivity.
Qed.

Lemma scan_prefix (t : Stack.term) :
  forall (n : Z) (stack : list expr),
    Stack.number t = Ok n ->
    Stack.scan true (rev (Stack.prefix t)) stack
    = Ok (Stack.push stack (Stack.cell t n)).
Proof.
  induction t as [d|o l IHl r IHr]; intros n stack H.
  - simpl in *. unfold Stack.step.
    destruct (Host.isDigit d); [reflexivity|discriminate].
  - destruct (number_operation o l r n H) as (a & b & Ho & Hl & Hr & Hn).
    cbn [Stack.prefix].
    replace (rev (o :: Stack.space :: Stack.prefix l
                    ++ Stack.space :: Stack.prefix r))
      with (rev (Stack.prefix r)
              ++ Stack.space :: rev (Stack.prefix l) ++ [Stack.space; o]).
    2:{ cbn [rev]. rewrite rev_app_distr. cbn [rev].
        rewrite <- !app_assoc. reflexivity. }
    rewrite scan_app, (IHr b stack Hr).
    cbn [rbind Stack.scan]. rewrite step_space.
    cbn [rbind]. rewrite scan_app, (IHl a _ Hl).
    cbn [rbind Stack.scan]. rewrite step_space. cbn [rbind].
    rewrite (step_operator true o stack l r a b Ho Hl Hr), Hn. reflexivity.
Qed.

(** X22: the postfix evaluator computes the term.  For a term whose
    operations are all exact, scanning its postfix notation leaves one
    cell: the digit itself, as a string, for a term that is a digit,
    and the number of the term otherwise. *)
Theorem X22_postfix_evaluator_computes_the_term
  (t : Stack.term) (n : Z) :
  Stack.number t = Ok n ->
  postfixEval (string_of_list_ascii (Stack.postfix t))
  = Ok (Stack.cell t n).
Proof.
  intros H. unfold postfixEval.
  rewrite list_ascii_of_string_of_list_ascii, (scan_postfix t n [] H).
  reflexivity.
Qed.

Lemma X22_postfix_evaluator_computes_the_term_witness :
  postfixEval "5 1 2 + 4 * + 3 -" = Ok (ENum 14).
Proof.
  apply (X22_postfix_evaluator_computes_the_term StackExamples.postfixTest 14).
  reflexivity.
Defined.

(** X23: the prefix evaluator of note 1, which scans from the last
    character to the first, computes the term from its prefix
    notation. *)
Theorem X23_prefix_evaluator_computes_the_term
  (t : Stack.term) (n : Z) :
  Stack.number t = Ok n ->
  prefixEvaluate (string_of_list_ascii (Stack.prefix t))
  = Ok (Stack.cell t n).
Proof.
  intros H. unfold prefixEvaluate.
  rewrite list_ascii_of_string_of_list_ascii, (scan_prefix t n [] H).
  reflexivity.
Qed.

Lemma X23_prefix_evaluator_computes_the_term_witness :
  prefixEvaluate "- + 5 * + 1 2 4 3" = Ok (ENum 14).
Proof.
  apply (X23_prefix_evaluator_computes_the_term StackExamples.postfixTest 14).
  reflexivity.
Defined.

(** X24: two terms in a row.  The postfix evaluator throws the
    ParseError string, which lists the two cells left on the stack;
    the prefix evaluator has no such check and returns the cell of the
    last term. *)
Theorem X24_two_terms_in_a_row
  (t1 t2 : Stack.term) (n1 n2 : Z) :
  Stack.number t1 = Ok n1 -> Stack.number t2 = Ok n2 ->
  let postfix := string_of_list_ascii
                   (Stack.postfix t1 ++ Stack.space :: Stack.postfix t2) in
  let prefix := string_of_list_ascii
                  (Stack.prefix t1 ++ Stack.space :: Stack.prefix t2) in
  postfixEval postfix
  = Throw (ThrowString
             ("ParseError: " +:+ postfix +:+ ", stack: "
              +:+ Host.toString (EArr [Stack.cell t1 n1; Stack.cell t2 n2])))
  /\ prefixEvaluate prefix = Ok (Stack.cell t2 n2).
Proof.
  intros H1 H2 postfix prefix. split.
  - unfold postfixEval, postfix.
    rewrite list_ascii_of_string_of_list_ascii, scan_app,
      (scan_postfix t1 n1 [] H1).
    cbn [rbind Stack.scan]. rewrite step_space. cbn [rbind].
    rewrite (scan_postfix t2 n2 _ H2). reflexivity.
  - unfold prefixEvaluate, prefix.
    rewrite list_ascii_of_string_of_list_ascii, rev_app_distr.
    cbn [rev]. rewrite <- app_assoc, scan_app, (scan_prefix t2 n2 [] H2).
    cbn [rbind app Stack.scan]. rewrite step_space. cbn [rbind].
    rewrite (scan_prefix t1 n1 _ H1). reflexivity.
Qed.

Lemma X24_two_terms_in_a_row_witness :
  postfixEval "1 2 + 3"
  = Throw (ThrowString "ParseError: 1 2 + 3, stack: 3,3")
  /\ prefixEvaluate "+ 1 2 3" = Ok (EStr "3").
Proof.
  apply (X24_two_terms_in_a_row
           (Stack.Operation "+" (StackExamples.digit 1) (StackExamples.digit 2))
           (StackExamples.digit 3) 3 3); reflexivity.
Defined.
